(** * ntfs_pancake: a shallow embedding of [ntfs_pancake.go]

    The program walks a directory tree, estimates for every regular file how
    well it compresses (deflate into an in-memory buffer), toggles the NTFS
    compression attribute accordingly and prints four totals.

    Layout of the development:
    - [Go]: the language primitives the program relies on (two's complement
      [int]/[int64], [uint64] to [int64] conversion, IEEE 754 binary64);
    - the operating-system boundary as a record [World] of oracles;
    - [setCompression], [compressFileInMemory], [processFile], [worker] and
      the pool, [Walk] and [scanAndCompressFolder], [main];
    - the properties of the statistics, of the estimator, of the decision
      step, of the traversal and of the command line. *)

From Stdlib Require Import ZArith Lia Bool List String Permutation.
From Stdlib Require Import QArith Qpower Lqa.
From Stdlib Require Import Floats.SpecFloat.
From Stdlib Require Import Ascii.
From stdpp Require Import base tactics option list.
Import ListNotations.

Local Open Scope Z_scope.

(** ** Go primitives *)

Module Go.

(** [int64] (and [int] on the 64-bit Windows targets the program is built
    for): two's complement with silent wrap-around. *)
Definition int64_min : Z := - 2 ^ 63.
Definition int64_max : Z := 2 ^ 63 - 1.

Definition to_int64 (z : Z) : Z := (z + 2 ^ 63) mod 2 ^ 64 - 2 ^ 63.

Definition in_int64 (z : Z) : Prop := int64_min <= z <= int64_max.

Definition add64 (a b : Z) : Z := to_int64 (a + b).
Definition sub64 (a b : Z) : Z := to_int64 (a - b).

(** [x++] on an [int]. *)
Definition incr (x : Z) : Z := to_int64 (x + 1).

(** [uint64] values are kept in [0, 2^64); [int64(u)] reinterprets the
    bits. *)
Definition in_uint64 (z : Z) : Prop := 0 <= z < 2 ^ 64.
Definition int64_of_uint64 (u : Z) : Z := to_int64 u.

(** [float64]: IEEE 754 binary64, round to nearest even. *)
Definition prec : Z := 53.
Definition emax : Z := 1024.

Definition float64 : Type := spec_float.

(** [float64(x)] for an integer [x]. *)
Definition float64_of_int (x : Z) : float64 :=
  binary_normalize prec emax x 0 false.

Definition fdiv (x y : float64) : float64 := SFdiv prec emax x y.
Definition fmul (x y : float64) : float64 := SFmul prec emax x y.
Definition flt (x y : float64) : bool := SFltb x y.
Definition fle (x y : float64) : bool := SFleb x y.

Definition is_nan (x : float64) : bool :=
  match x with S754_nan => true | _ => false end.

End Go.

(** ** Constants of the program *)

Definition FSCTL_SET_COMPRESSION : Z := 0x9C040.
Definition COMPRESSION_FORMAT_DEFAULT : Z := 1.
Definition COMPRESSION_FORMAT_NONE : Z := 0.
Definition COMPRESSION_EFFICIENCY_THRESHOLD : Z := 10.
Definition WORKER_COUNT : nat := 200.

(** ** Errors and results *)

Variant error : Type :=
  | ErrNotExist
  | ErrPermission
  | ErrOther (code : Z).

Variant result (A : Type) : Type :=
  | Ok (a : A)
  | Err (e : error).
Arguments Ok {A} a.
Arguments Err {A} e.

#[global] Instance result_ret : MRet result := fun A a => Ok a.
#[global] Instance result_bind : MBind result := fun A B k r =>
  match r with
  | Ok a => k a
  | Err e => Err e
  end.

(** ** The decision step of [processFile]

    [spaceSaved := originalSize - compressedSize] and
    [savingRatio := float64(spaceSaved) / float64(originalSize) * 100]. *)

Definition spaceSaved (originalSize compressedSize : Z) : Z :=
  Go.sub64 originalSize compressedSize.

Definition savingRatio (originalSize compressedSize : Z) : Go.float64 :=
  Go.fmul
    (Go.fdiv (Go.float64_of_int (spaceSaved originalSize compressedSize))
             (Go.float64_of_int originalSize))
    (Go.float64_of_int 100).

(** The test [savingRatio < COMPRESSION_EFFICIENCY_THRESHOLD]: the untyped
    constant is converted to [float64]. *)
Definition notWorthIt (originalSize compressedSize : Z) : bool :=
  Go.flt (savingRatio originalSize compressedSize)
         (Go.float64_of_int COMPRESSION_EFFICIENCY_THRESHOLD).

(** ** The operating-system boundary *)

Definition path : Type := string.
Definition handle : Type := Z.

(** One call of [originalFile.Read(buf)]: the bytes placed in [buf[:n]] and
    the error returned with them ([nil], [io.EOF] or another error). *)
Variant ReadResult : Type :=
  | ReadNil (chunk : list Byte.byte)
  | ReadEOF (chunk : list Byte.byte)
  | ReadFail (chunk : list Byte.byte) (e : error).

(** The [flate.Writer] over the in-memory [bytes.Buffer]: an abstract stream
    machine.  [Write] and [Close] return the bytes they append to the sink. *)
Record Flate : Type := {
  writer : Type;
  NewWriter : result writer;
  Write : writer -> list Byte.byte -> result (writer * list Byte.byte);
  Close : writer -> result (list Byte.byte)
}.

(** What the program observes of the machine it runs on.  An opened file is
    the sequence of results of its successive [Read] calls; once the sequence
    is used up [Read] returns [(0, io.EOF)].  [Frees p] is the value of
    [memStat.Frees] read by the [processFile] call for [p]. *)
Record World : Type := {
  Stat : path -> result Z;
  Frees : path -> Z;
  Open : path -> result (list ReadResult);
  CreateFile : path -> result handle;
  DeviceIoControl : handle -> Z -> Z -> option error
}.

(** ** Events: what the program prints and the control calls it issues *)

Variant Event : Type :=
  | PrintSizeError (p : path) (e : error)
  | PrintTooLarge (p : path)
  | PrintEstimateError (p : path) (e : error)
  | PrintNotWorthIt (p : path) (ratio : Go.float64)
  | PrintDisableError (p : path) (e : error)
  | PrintBeneficial (p : path) (ratio : Go.float64)
  | PrintEnableError (p : path) (e : error)
  | PrintAccessError (p : path) (e : error)
  | PrintScanError (root : path) (e : error)
  | PrintUsage (prog : string)
  | PrintSummary (processed compressed decompressed saved : Z)
  | CallSetCompression (p : path) (format : Z).

(** ** The global counters *)

Record Stats : Type := {
  totalFilesProcessed : Z;
  totalFilesCompressed : Z;
  totalFilesDecompressed : Z;
  totalSpaceSaved : Z
}.

Definition zeroStats : Stats :=
  {| totalFilesProcessed := 0; totalFilesCompressed := 0;
     totalFilesDecompressed := 0; totalSpaceSaved := 0 |}.

(** ** [setCompression], [enableCompression], [disableCompression] *)

Definition setCompression (w : World) (p : path) (compressionFormat : Z)
  : option error :=
  match CreateFile w p with
  | Err e => Some e
  | Ok file => DeviceIoControl w file FSCTL_SET_COMPRESSION compressionFormat
  end.

Definition enableCompression (w : World) (p : path) : option error :=
  setCompression w p COMPRESSION_FORMAT_DEFAULT.

Definition disableCompression (w : World) (p : path) : option error :=
  setCompression w p COMPRESSION_FORMAT_NONE.

(** ** [getFileSize] *)

Definition getFileSize (w : World) (p : path) : result Z := Stat w p.

(** ** [compressFileInMemory] *)

Section Estimator.

Variable flate : Flate.

Definition len (b : list Byte.byte) : Z := Z.of_nat (length b).

(** The copy loop.  The state is the writer, the sink
    ([compressedBuffer]) and [originalSize]; the reads still to come are
    the recursion argument. *)
Fixpoint copyLoop (reads : list ReadResult) (wr : writer flate)
    (compressedBuffer : list Byte.byte) (originalSize : Z)
  : result (writer flate * list Byte.byte * Z) :=
  match reads with
  | [] =>
      (* n = 0 with io.EOF: break *)
      Ok (wr, compressedBuffer, originalSize)
  | ReadFail _ e :: _ => Err e
  | ReadNil chunk :: rest | ReadEOF chunk :: rest =>
      if (len chunk =? 0) then Ok (wr, compressedBuffer, originalSize)
      else
        let originalSize := Go.add64 originalSize (len chunk) in
        '(wr, out) ← Write flate wr chunk;
        copyLoop rest wr (compressedBuffer ++ out) originalSize
  end.

Definition compressFileInMemory (w : World) (p : path) : result (Z * Z) :=
  originalFile ← Open w p;
  wr ← NewWriter flate;
  '(wr, compressedBuffer, originalSize) ← copyLoop originalFile wr [] 0;
  out ← Close flate wr;
  let compressedBuffer := compressedBuffer ++ out in
  let compressedSize := len compressedBuffer in
  Ok (originalSize, compressedSize).

(** ** [processFile] *)

(** The part of [processFile] between [mu.Lock()] and [mu.Unlock()], with
    the computation of [spaceSaved] and [savingRatio] that precedes it. *)
Definition decisionStep (w : World) (p : path)
    (originalSize compressedSize : Z) (st : Stats) : Stats * list Event :=
  let saved := spaceSaved originalSize compressedSize in
  let ratio := savingRatio originalSize compressedSize in
  let processed := Go.incr (totalFilesProcessed st) in
  if notWorthIt originalSize compressedSize then
    match disableCompression w p with
    | Some e =>
        ({| totalFilesProcessed := processed;
            totalFilesCompressed := totalFilesCompressed st;
            totalFilesDecompressed := totalFilesDecompressed st;
            totalSpaceSaved := totalSpaceSaved st |},
         [PrintNotWorthIt p ratio;
          CallSetCompression p COMPRESSION_FORMAT_NONE;
          PrintDisableError p e])
    | None =>
        ({| totalFilesProcessed := processed;
            totalFilesCompressed := totalFilesCompressed st;
            totalFilesDecompressed := Go.incr (totalFilesDecompressed st);
            totalSpaceSaved := totalSpaceSaved st |},
         [PrintNotWorthIt p ratio;
          CallSetCompression p COMPRESSION_FORMAT_NONE])
    end
  else
    match enableCompression w p with
    | Some e =>
        ({| totalFilesProcessed := processed;
            totalFilesCompressed := totalFilesCompressed st;
            totalFilesDecompressed := totalFilesDecompressed st;
            totalSpaceSaved := totalSpaceSaved st |},
         [PrintBeneficial p ratio;
          CallSetCompression p COMPRESSION_FORMAT_DEFAULT;
          PrintEnableError p e])
    | None =>
        ({| totalFilesProcessed := processed;
            totalFilesCompressed := Go.incr (totalFilesCompressed st);
            totalFilesDecompressed := totalFilesDecompressed st;
            totalSpaceSaved := Go.add64 (totalSpaceSaved st) saved |},
         [PrintBeneficial p ratio;
          CallSetCompression p COMPRESSION_FORMAT_DEFAULT])
    end.

Definition processFile (w : World) (p : path) (st : Stats)
  : Stats * list Event :=
  match getFileSize w p with
  | Err e => (st, [PrintSizeError p e])
  | Ok originalSize =>
      if (originalSize >? Go.int64_of_uint64 (Frees w p))
      then (st, [PrintTooLarge p])
      else
        match compressFileInMemory w p with
        | Err e => (st, [PrintEstimateError p e])
        | Ok (originalSize, compressedSize) =>
            decisionStep w p originalSize compressedSize st
        end
  end.

End Estimator.

(** ** [worker] and the pool of [scanAndCompressFolder]

    [worker flate w paths st] is one worker receiving exactly [paths] from
    the channel: [for path := range paths { processFile(path) }]. *)

Section Pool.

Variable flate : Flate.
Variable w : World.

Fixpoint worker (paths : list path) (st : Stats) : Stats * list Event :=
  match paths with
  | [] => (st, [])
  | p :: rest =>
      let '(st, ev) := processFile flate w p st in
      let '(st, evs) := worker rest st in
      (st, ev ++ evs)
  end.

(** A worker is blocked on the channel, holds a path it has received and
    not yet processed, or has left its loop and called [wg.Done]. *)
Variant WorkerState : Type :=
  | Waiting
  | Holding (p : path)
  | Exited.

(** [queue] holds the paths the walker goroutine has still to send, in
    order; the channel is closed once it is empty.  The counters are only
    touched between [mu.Lock] and [mu.Unlock], so one [processFile] call
    is one atomic update of [stats]. *)
Record Pool : Type := {
  queue : list path;
  workers : list WorkerState;
  stats : Stats;
  printed : list Event
}.

Definition startPool (n : nat) (paths : list path) (st : Stats) : Pool :=
  {| queue := paths; workers := replicate n Waiting; stats := st;
     printed := [] |}.

(** The scheduler lets worker [i] take its next step. *)
Definition move (i : nat) (s : Pool) : Pool :=
  match workers s !! i with
  | Some Waiting =>
      match queue s with
      | p :: rest =>
          {| queue := rest; workers := <[i := Holding p]> (workers s);
             stats := stats s; printed := printed s |}
      | [] =>
          {| queue := []; workers := <[i := Exited]> (workers s);
             stats := stats s; printed := printed s |}
      end
  | Some (Holding p) =>
      let '(st, ev) := processFile flate w p (stats s) in
      {| queue := queue s; workers := <[i := Waiting]> (workers s);
         stats := st; printed := printed s ++ ev |}
  | Some Exited | None => s
  end.

Definition exec (sched : list nat) (s : Pool) : Pool :=
  fold_left (fun s i => move i s) sched s.

Definition exited (ws : WorkerState) : bool :=
  match ws with Exited => true | _ => false end.

Definition drained (s : Pool) : bool := forallb exited (workers s).

(** [wg.Wait()] returns once every worker has exited.  Whatever the
    schedule did so far, the run is completed by letting each worker in
    turn run until it exits: worker [i] needs at most two steps per path it
    can still receive, one for a path it holds and one to see the closed
    channel. *)
Definition runToExit (i : nat) (s : Pool) : Pool :=
  exec (replicate (2 * length (queue s) + 2) i) s.

Definition waitAll (s : Pool) : Pool :=
  fold_left (fun s i => runToExit i s) (seq 0 (length (workers s))) s.

Definition runPool (n : nat) (sched : list nat) (paths : list path)
    (st : Stats) : Pool :=
  waitAll (exec sched (startPool n paths st)).

End Pool.

(** ** The directory tree and [filepath.Walk]

    [filepath.Walk] belongs to Go's standard library; it is modelled after
    its documented behaviour on a finite tree: entries are visited in the
    order of the (sorted) listing, the function is called once per entry, a
    directory that cannot be listed or an entry that cannot be stat'ed is
    reported to the function through its [err] argument, and a non-nil
    result other than [SkipDir]/[SkipAll] stops the whole walk. *)

#[warnings="-register-all"]
Inductive FsNode : Type :=
  | Missing (e : error)           (* [os.Lstat] fails on the entry *)
  | File (regular : bool)         (* not a directory; regular or special *)
  | Dir (listing : option error)  (* the error of reading its names, if any *)
        (entries : list (string * FsNode)).

Record FileInfo : Type := { IsDir : bool; IsRegular : bool }.

Variant WalkErr : Type :=
  | SkipDir
  | SkipAll
  | Failed (e : error).

Definition WalkFunc (S : Type) : Type :=
  path -> option FileInfo -> option error -> S -> S * option WalkErr.

Definition isSkipDir (r : WalkErr) : bool :=
  match r with SkipDir => true | _ => false end.

Definition isDirNode (node : FsNode) : bool :=
  match node with Dir _ _ => true | _ => false end.

(** After a child returned [r], does the loop over the names go on? *)
Definition keepsGoing (child : FsNode) (r : WalkErr) : bool :=
  match child with
  | Missing _ => isSkipDir r
  | _ => isDirNode child && isSkipDir r
  end.

(** [filepath.Join(path, name)] builds the path of an entry from the path of
    its directory and its name, and cleans the result.  It is library code
    and a parameter of the traversal. *)
Section Traversal.

Variable Join : path -> string -> path.

Fixpoint walk {S : Type} (fn : WalkFunc S) (p : path) (node : FsNode) (s : S)
    {struct node} : S * option WalkErr :=
  match node with
  | Missing e => fn p None (Some e) s
  | File regular =>
      fn p (Some {| IsDir := false; IsRegular := regular |}) None s
  | Dir listing entries =>
      let '(s, err1) :=
        fn p (Some {| IsDir := true; IsRegular := false |}) listing s in
      if is_Some_dec listing then (s, err1)
      else if is_Some_dec err1 then (s, err1)
      else
        (fix names (l : list (string * FsNode)) (s : S) : S * option WalkErr :=
           match l with
           | [] => (s, None)
           | (name, child) :: rest =>
               let '(s, err) := walk fn (Join p name) child s in
               match err with
               | None => names rest s
               | Some r =>
                   if keepsGoing child r then names rest s else (s, Some r)
               end
           end) entries s
  end.

Definition Walk {S : Type} (fn : WalkFunc S) (root : path) (tree : FsNode)
    (s : S) : S * option error :=
  let '(s, err) := walk fn root tree s in
  (s, match err with
      | Some (Failed e) => Some e
      | Some SkipDir | Some SkipAll | None => None
      end).

End Traversal.

(** ** The walker goroutine of [scanAndCompressFolder]

    The state threaded through the walk is the list of paths sent on the
    channel so far and the lines printed so far. *)

Definition walkFn : WalkFunc (list path * list Event) :=
  fun p info err s =>
    match err with
    | Some e => ((s.1, s.2 ++ [PrintAccessError p e]), Some (Failed e))
    | None =>
        match info with
        | Some info =>
            if negb (IsDir info) && IsRegular info
            then ((s.1 ++ [p], s.2), None)
            else (s, None)
        | None => (s, None) (* not reached: a nil info comes with an error *)
        end
    end.

Definition walker (Join : path -> string -> path) (root : path)
    (tree : FsNode) : list path * list Event :=
  let '((sent, out), err) := Walk Join walkFn root tree ([], []) in
  match err with
  | Some e => (sent, out ++ [PrintScanError root e])
  | None => (sent, out)
  end.

(** ** [scanAndCompressFolder] and [main] *)

(** The walker goroutine and the workers print to the same standard output.
    Each keeps the order of its own lines; which of the two prints next is
    decided by the scheduler: [true] lets the first sequence go, [false] the
    second, and when the choices are used up the first sequence goes
    first. *)
Fixpoint interleave (choice : list bool) (a b : list Event) : list Event :=
  match choice with
  | [] => a ++ b
  | true :: rest =>
      match a with
      | x :: a' => x :: interleave rest a' b
      | [] => b
      end
  | false :: rest =>
      match b with
      | y :: b' => y :: interleave rest a b'
      | [] => a
      end
  end.

Section Program.

Variable flate : Flate.
Variable w : World.
Variable Join : path -> string -> path.

(** [tree] is the directory tree found at [root]; [sched] is the order in
    which the scheduler lets the workers step and [merge] the order in
    which the lines of the walker and of the workers reach the output. *)
Definition scanAndCompressFolder (sched : list nat) (merge : list bool)
    (root : path) (tree : FsNode) (st : Stats) : Stats * list Event :=
  let '(sent, out) := walker Join root tree in
  let s := runPool flate w WORKER_COUNT sched sent st in
  (stats s, interleave merge out (printed s)).

Variant Exit : Type :=
  | ExitCode (code : Z)
  | Panic.

Record Run : Type := {
  output : list Event;
  final : Stats;
  exit : Exit
}.

(** Returning from [main] ends the process with exit code 0; the program
    never calls [os.Exit].  [os.Args[0]] on an empty argument vector is an
    index out of range. *)
Definition main (args : list string) (sched : list nat) (merge : list bool)
    (tree : FsNode) : Run :=
  if negb (length args =? 2)%nat then
    match args with
    | prog :: _ =>
        {| output := [PrintUsage prog]; final := zeroStats;
           exit := ExitCode 0 |}
    | [] => {| output := []; final := zeroStats; exit := Panic |}
    end
  else
    let folderPath := nth 1 args ""%string in
    let '(st, out) :=
      scanAndCompressFolder sched merge folderPath tree zeroStats in
    {| output :=
         out ++ [PrintSummary (totalFilesProcessed st)
                              (totalFilesCompressed st)
                              (totalFilesDecompressed st)
                              (totalSpaceSaved st)];
       final := st;
       exit := ExitCode 0 |}.

End Program.

(** ** What one file contributes to the counters *)

Variant Decision : Type :=
  | Enable
  | Disable.

(** The branch [processFile] takes on a sample. *)
Definition decide (originalSize compressedSize : Z) : Decision :=
  if notWorthIt originalSize compressedSize then Disable else Enable.

Definition apply (w : World) (p : path) (d : Decision) : option error :=
  match d with
  | Enable => enableCompression w p
  | Disable => disableCompression w p
  end.

Variant Outcome : Type :=
  | NotCounted          (* left before the counters are touched *)
  | ApplyFailed (d : Decision)
  | Decompressed
  | Compressed (bytesSaved : Z).

Section Outcomes.

Variable flate : Flate.
Variable w : World.

(** Is the file handed to the estimator? *)
Definition estimated (p : path) : bool :=
  match getFileSize w p with
  | Err _ => false
  | Ok size => negb (size >? Go.int64_of_uint64 (Frees w p))
  end.

(** The sizes on which the decision is taken, when it is taken. *)
Definition sample (p : path) : option (Z * Z) :=
  if estimated p then
    match compressFileInMemory flate w p with
    | Ok oc => Some oc
    | Err _ => None
    end
  else None.

Definition outcome (p : path) : Outcome :=
  match sample p with
  | None => NotCounted
  | Some (originalSize, compressedSize) =>
      let d := decide originalSize compressedSize in
      match apply w p d with
      | Some _ => ApplyFailed d
      | None =>
          match d with
          | Disable => Decompressed
          | Enable => Compressed (spaceSaved originalSize compressedSize)
          end
      end
  end.

Definition record (o : Outcome) (st : Stats) : Stats :=
  match o with
  | NotCounted => st
  | ApplyFailed _ =>
      {| totalFilesProcessed := Go.incr (totalFilesProcessed st);
         totalFilesCompressed := totalFilesCompressed st;
         totalFilesDecompressed := totalFilesDecompressed st;
         totalSpaceSaved := totalSpaceSaved st |}
  | Decompressed =>
      {| totalFilesProcessed := Go.incr (totalFilesProcessed st);
         totalFilesCompressed := totalFilesCompressed st;
         totalFilesDecompressed := Go.incr (totalFilesDecompressed st);
         totalSpaceSaved := totalSpaceSaved st |}
  | Compressed bytesSaved =>
      {| totalFilesProcessed := Go.incr (totalFilesProcessed st);
         totalFilesCompressed := Go.incr (totalFilesCompressed st);
         totalFilesDecompressed := totalFilesDecompressed st;
         totalSpaceSaved := Go.add64 (totalSpaceSaved st) bytesSaved |}
  end.

End Outcomes.

(** ** Counting over the files of a run *)

Fixpoint sumOver (f : path -> Z) (l : list path) : Z :=
  match l with
  | [] => 0
  | p :: rest => f p + sumOver f rest
  end.

Definition counted (o : Outcome) : Z :=
  match o with NotCounted => 0 | _ => 1 end.

Definition compressed (o : Outcome) : Z :=
  match o with Compressed _ => 1 | _ => 0 end.

Definition decompressed (o : Outcome) : Z :=
  match o with Decompressed => 1 | _ => 0 end.

Definition applyFailed (o : Outcome) : Z :=
  match o with ApplyFailed _ => 1 | _ => 0 end.

Definition bytesSaved (o : Outcome) : Z :=
  match o with Compressed b => b | _ => 0 end.

Section Counts.

Variable flate : Flate.
Variable w : World.

(** The estimation step was run on the file and returned an error. *)
Definition estimationFailed (p : path) : Z :=
  if estimated w p then
    match compressFileInMemory flate w p with
    | Err _ => 1
    | Ok _ => 0
    end
  else 0.

(** Files whose estimation or whose controller call failed. *)
Definition filesFailed (l : list path) : Z :=
  sumOver (fun p => estimationFailed p + applyFailed (outcome flate w p)) l.

(** Files that reached the decision: neither the size query nor the memory
    guard nor the estimation made [processFile] return early. *)
Definition filesDecided (l : list path) : Z :=
  sumOver (fun p =>
    match sample flate w p with
    | Some _ => 1
    | None => 0
    end) l.

(** Files whose controller call failed. *)
Definition filesApplyFailed (l : list path) : Z :=
  sumOver (fun p => applyFailed (outcome flate w p)) l.

(** The sum of [originalSize - compressedSize] over the files that received
    Enable and whose controller call succeeded, as a mathematical integer. *)
Definition savedByEnabled (l : list path) : Z :=
  sumOver (fun p =>
    match sample flate w p with
    | Some (originalSize, compressedSize) =>
        match decide originalSize compressedSize,
              apply w p (decide originalSize compressedSize) with
        | Enable, None => originalSize - compressedSize
        | _, _ => 0
        end
    | None => 0
    end) l.

(** The counters after the files of [l] have been recorded, in closed form. *)
Definition tally (l : list path) (st : Stats) : Stats :=
  {| totalFilesProcessed :=
       Go.to_int64 (totalFilesProcessed st
                    + sumOver (fun p => counted (outcome flate w p)) l);
     totalFilesCompressed :=
       Go.to_int64 (totalFilesCompressed st
                    + sumOver (fun p => compressed (outcome flate w p)) l);
     totalFilesDecompressed :=
       Go.to_int64 (totalFilesDecompressed st
                    + sumOver (fun p => decompressed (outcome flate w p)) l);
     totalSpaceSaved :=
       Go.to_int64 (totalSpaceSaved st
                    + sumOver (fun p => bytesSaved (outcome flate w p)) l) |}.

End Counts.

Definition wfStats (st : Stats) : Prop :=
  Go.in_int64 (totalFilesProcessed st)
  /\ Go.in_int64 (totalFilesCompressed st)
  /\ Go.in_int64 (totalFilesDecompressed st)
  /\ Go.in_int64 (totalSpaceSaved st).

(** The paths held by workers, in worker order. *)
Fixpoint held (ws : list WorkerState) : list path :=
  match ws with
  | [] => []
  | Holding p :: rest => p :: held rest
  | _ :: rest => held rest
  end.

(** Everything that is still to be recorded. *)
Definition pending (s : Pool) : list path := held (workers s) ++ queue s.

(** The invariant of a pool run over the paths [l] from the counters [st0]:
    the counters are in range, recording what is pending brings them to the
    closed form, and a worker leaves only when the channel is closed. *)
Definition poolInv (flate : Flate) (w : World) (l : list path) (st0 : Stats)
    (s : Pool) : Prop :=
  wfStats (stats s)
  /\ tally flate w (pending s) (stats s) = tally flate w l st0
  /\ (forall i, workers s !! i = Some Exited -> queue s = []).

(** The number of steps worker [i] still takes before it has exited, when no
    other worker moves. *)
Definition stepsLeft (i : nat) (s : Pool) : nat :=
  match workers s !! i with
  | Some Waiting => 2 * length (queue s) + 1
  | Some (Holding _) => 2 * length (queue s) + 2
  | Some Exited | None => 0
  end.

(** ** Small instances, used to run the definitions *)

(** A compressor that stores its input and ends the stream with the five
    bytes of an empty final stored block. *)
Definition storedFlate : Flate :=
  {| writer := unit;
     NewWriter := Ok tt;
     Write := fun _ b => Ok (tt, b);
     Close := fun _ => Ok [Byte.x01; Byte.x00; Byte.x00; Byte.xff; Byte.xff] |}.

Definition isZeroByte (b : Byte.byte) : bool :=
  match b with Byte.x00 => true | _ => false end.

(** A compressor that drops zero bytes, with the same trailer. *)
Definition zeroSkipFlate : Flate :=
  {| writer := unit;
     NewWriter := Ok tt;
     Write := fun _ b => Ok (tt, List.filter (fun x => negb (isZeroByte x)) b);
     Close := fun _ => Ok [Byte.x01; Byte.x00; Byte.x00; Byte.xff; Byte.xff] |}.

(** A machine with five files: [zeros] (100 zero bytes, read in two calls),
    [noise] (100 bytes [0xff]), [locked] (like [zeros], but the control call
    is refused), [gone] (cannot be opened) and [huge] (larger than the
    [memStat.Frees] reading). *)
Definition demoWorld : World :=
  {| Stat := fun p =>
       if (p =? "huge")%string then Ok 5000
       else if ((p =? "zeros") || (p =? "noise") || (p =? "locked")
                || (p =? "gone"))%string
       then Ok 100 else Err ErrNotExist;
     Frees := fun _ => 1000;
     Open := fun p =>
       if ((p =? "zeros") || (p =? "locked"))%string
       then Ok [ReadNil (repeat Byte.x00 60); ReadNil (repeat Byte.x00 40)]
       else if (p =? "noise")%string then Ok [ReadNil (repeat Byte.xff 100)]
       else if (p =? "huge")%string then Ok [ReadNil (repeat Byte.x00 5000)]
       else Err ErrPermission;
     CreateFile := fun p =>
       if (p =? "locked")%string then Err ErrPermission else Ok 7;
     DeviceIoControl := fun _ _ _ => None |}.

Definition demoPaths : list path :=
  ["zeros"; "noise"; "locked"; "gone"; "huge"]%string.

(** The same machine with another reading of [memStat.Frees]. *)
Definition withFrees (w : World) (frees : Z) : World :=
  {| Stat := Stat w;
     Frees := fun _ => frees;
     Open := Open w;
     CreateFile := CreateFile w;
     DeviceIoControl := DeviceIoControl w |}.

(** ** The traversal order

    [preorder Join p node] lists every entry of the tree in the order in which
    [walk] would reach it if nothing stopped the walk, with what it finds
    there: a file, a directory that can be listed, or an error (the entry
    cannot be stat'ed, or the directory cannot be listed; the entries below
    such a directory are never reached). *)

Variant Visit : Type :=
  | VisitFile (regular : bool)
  | VisitDir
  | VisitError (e : error).

Fixpoint preorder (Join : path -> string -> path) (p : path)
    (node : FsNode) {struct node} : list (path * Visit) :=
  match node with
  | Missing e => [(p, VisitError e)]
  | File regular => [(p, VisitFile regular)]
  | Dir (Some e) _ => [(p, VisitError e)]
  | Dir None entries =>
      (p, VisitDir)
      :: (fix names (l : list (string * FsNode)) : list (path * Visit) :=
            match l with
            | [] => []
            | (name, child) :: rest =>
                preorder Join (Join p name) child ++ names rest
            end) entries
  end.

(** The visits before the first error. *)
Fixpoint beforeError (vs : list (path * Visit)) : list (path * Visit) :=
  match vs with
  | [] => []
  | (_, VisitError _) :: _ => []
  | v :: rest => v :: beforeError rest
  end.

Fixpoint firstError (vs : list (path * Visit)) : option (path * error) :=
  match vs with
  | [] => None
  | (p, VisitError e) :: _ => Some (p, e)
  | _ :: rest => firstError rest
  end.

Fixpoint regularFiles (vs : list (path * Visit)) : list path :=
  match vs with
  | [] => []
  | (p, VisitFile true) :: rest => p :: regularFiles rest
  | _ :: rest => regularFiles rest
  end.

(** What [filepath.Join] returns on Windows for a clean directory path and a
    plain name. *)
Definition backslashJoin (dir name : string) : path :=
  (dir ++ "\" ++ name)%string.


(** ** What the estimator reads and what the compressor produces *)

(** The chunks the copy loop hands to the writer: every read up to the first
    one that returns no byte (or fails). *)
Fixpoint chunksRead (reads : list ReadResult) : list (list Byte.byte) :=
  match reads with
  | [] => []
  | ReadFail _ _ :: _ => []
  | ReadNil chunk :: rest | ReadEOF chunk :: rest =>
      if (len chunk =? 0) then [] else chunk :: chunksRead rest
  end.

(** The read error that ends the loop, if there is one. *)
Fixpoint readError (reads : list ReadResult) : option error :=
  match reads with
  | [] => None
  | ReadFail _ e :: _ => Some e
  | ReadNil chunk :: rest | ReadEOF chunk :: rest =>
      if (len chunk =? 0) then None else readError rest
  end.

(** The byte stream of the file as the loop sees it. *)
Definition bytesRead (reads : list ReadResult) : list Byte.byte :=
  concat (chunksRead reads).

Section Compressor.

Variable flate : Flate.

Fixpoint writeAll (wr : writer flate) (chunks : list (list Byte.byte))
    (sink : list Byte.byte) : result (writer flate * list Byte.byte) :=
  match chunks with
  | [] => Ok (wr, sink)
  | chunk :: rest =>
      '(wr, out) ← Write flate wr chunk;
      writeAll wr rest (sink ++ out)
  end.

(** The sink after the chunks have been written one by one and the writer
    has been closed. *)
Definition sinkAfterClose (chunks : list (list Byte.byte))
  : result (list Byte.byte) :=
  wr ← NewWriter flate;
  '(wr, sink) ← writeAll wr chunks [];
  out ← Close flate wr;
  Ok (sink ++ out).

(** A stream compressor does not see how its input is cut into [Write]
    calls: writing [a ++ b] is writing [a] and then [b], and writing nothing
    changes nothing. *)
Definition StreamLaw : Prop :=
  (forall wr, Write flate wr [] = Ok (wr, []))
  /\ (forall wr a b,
        Write flate wr (a ++ b)
        = ('(wr1, out1) ← Write flate wr a;
           '(wr2, out2) ← Write flate wr1 b;
           Ok (wr2, out1 ++ out2))).

End Compressor.

(** The same machine where every file is opened with the given reads. *)
Definition withOpen (w : World) (reads : list ReadResult) : World :=
  {| Stat := Stat w;
     Frees := Frees w;
     Open := fun _ => Ok reads;
     CreateFile := CreateFile w;
     DeviceIoControl := DeviceIoControl w |}.

(** ** The run seen from outside: control calls and critical sections *)

(** The control calls among the events, in the order they were issued. *)
Fixpoint controlCalls (evs : list Event) : list (path * Z) :=
  match evs with
  | [] => []
  | CallSetCompression p format :: rest => (p, format) :: controlCalls rest
  | _ :: rest => controlCalls rest
  end.

(** The events produced between [mu.Lock()] and [mu.Unlock()]: the two
    progress lines, the control call and the line reporting its failure.
    The other lines of [processFile] are printed without the lock. *)
Definition inCriticalSection (ev : Event) : bool :=
  match ev with
  | PrintNotWorthIt _ _ | PrintDisableError _ _
  | PrintBeneficial _ _ | PrintEnableError _ _
  | CallSetCompression _ _ => true
  | _ => false
  end.

Definition criticalEvents (evs : list Event) : list Event :=
  List.filter inCriticalSection evs.

(** A pool run is explained by [done] when the files recorded so far are
    those of [done], in that order, and together with what is pending they
    are the files handed to the pool. *)
Definition explainedBy (flate : Flate) (w : World) (l : list path)
    (st0 : Stats) (s : Pool) (done : list path) : Prop :=
  Permutation (done ++ pending s) l
  /\ worker flate w done st0 = (stats s, printed s).

Definition formatOf (d : Decision) : Z :=
  match d with
  | Enable => COMPRESSION_FORMAT_DEFAULT
  | Disable => COMPRESSION_FORMAT_NONE
  end.

(** The control call a file gives rise to: none when it is left before the
    decision, else one call with the format of its decision. *)
Definition callsFor (flate : Flate) (w : World) (p : path) : list (path * Z) :=
  match sample flate w p with
  | None => []
  | Some (originalSize, compressedSize) =>
      [(p, formatOf (decide originalSize compressedSize))]
  end.


(** A float that is a zero or carries the minus sign (and is not NaN). *)
Definition nonPositive (x : Go.float64) : Prop :=
  match x with
  | S754_zero _ => True
  | S754_infinity s | S754_finite s _ _ => s = true
  | S754_nan => False
  end.

Definition signedAs (sx : bool) (x : Go.float64) : Prop :=
  match x with
  | S754_zero s | S754_infinity s | S754_finite s _ _ => s = sx
  | S754_nan => False
  end.

(** The rational number a [float64] stands for (0 for the infinities and
    NaN, which the lemmas below never meet). *)
Definition F2Q (x : Go.float64) : Q :=
  match x with
  | S754_finite s m e =>
      ((if s then -1 else 1) * inject_Z (Zpos m) * Qpower 2 e)%Q
  | _ => 0%Q
  end.

(** [m * 2^e] as a rational. *)
Definition V (m e : Z) : Q := (inject_Z m * Qpower 2 e)%Q.

(** A positive normal number: a mantissa of exactly 53 bits. *)
Definition canonical (x : Go.float64) : Prop :=
  match x with
  | S754_finite false m e => Z.log2 (Zpos m) = 52
  | _ => False
  end.

(** [2^-52], the spacing of the [float64] numbers relative to their size. *)
Definition eps : Q := (1 # 4503599627370496)%Q.

(** ** [checksum.ps1]: the checksum string

    [Get-FileChecksum] hashes the bytes of the file with SHA-256, turns the
    hash into text with [BitConverter.ToString] (two upper-case hexadecimal
    digits per byte, bytes separated by hyphens) and removes the hyphens
    with [-replace '-', '']. *)

Definition hexDigit (n : N) : Ascii.ascii :=
  match n with
  | 0%N => "0" | 1%N => "1" | 2%N => "2" | 3%N => "3" | 4%N => "4"
  | 5%N => "5" | 6%N => "6" | 7%N => "7" | 8%N => "8" | 9%N => "9"
  | 10%N => "A" | 11%N => "B" | 12%N => "C" | 13%N => "D" | 14%N => "E"
  | _ => "F"
  end%char.

Definition byteToHex (b : Byte.byte) : string :=
  String (hexDigit (Byte.to_N b / 16)%N)
    (String (hexDigit (Byte.to_N b mod 16)%N) EmptyString).

Fixpoint BitConverter_ToString (bs : list Byte.byte) : string :=
  match bs with
  | [] => ""
  | [b] => byteToHex b
  | b :: rest => byteToHex b ++ "-" ++ BitConverter_ToString rest
  end%string.

(** [s -replace '-', '']. *)
Fixpoint removeHyphens (s : string) : string :=
  match s with
  | EmptyString => EmptyString
  | String c rest =>
      if Ascii.eqb c "-" then removeHyphens rest
      else String c (removeHyphens rest)
  end.

Definition Get_FileChecksum (SHA256 : list Byte.byte -> list Byte.byte)
    (content : list Byte.byte) : string :=
  let hashBytes := SHA256 content in
  removeHyphens (BitConverter_ToString hashBytes).

(** Reading a checksum string back. *)
Definition hexValue (c : Ascii.ascii) : option N :=
  let n := Ascii.N_of_ascii c in
  if ((48 <=? n) && (n <=? 57))%N then Some (n - 48)%N
  else if ((65 <=? n) && (n <=? 70))%N then Some (n - 55)%N
  else None.

Fixpoint hexDecode (s : string) : option (list Byte.byte) :=
  match s with
  | EmptyString => Some []
  | String hi (String lo rest) =>
      match hexValue hi, hexValue lo, hexDecode rest with
      | Some h, Some l, Some bs =>
          match Byte.of_N (16 * h + l) with
          | Some b => Some (b :: bs)
          | None => None
          end
      | _, _, _ => None
      end
  | String _ EmptyString => None
  end.

(** The hexadecimal text of a byte sequence, without separators. *)
Fixpoint hexOf (bs : list Byte.byte) : string :=
  match bs with
  | [] => ""
  | b :: rest => byteToHex b ++ hexOf rest
  end%string.
(** * Properties *)

(** ** Arithmetic of [int64] *)

Lemma to_int64_id (z : Z) : Go.in_int64 z -> Go.to_int64 z = z.
Proof.
  unfold Go.in_int64, Go.int64_min, Go.int64_max, Go.to_int64. intros H.
  rewrite Z.mod_small; lia.
Qed.

Lemma to_int64_range (z : Z) : Go.in_int64 (Go.to_int64 z).
Proof.
  unfold Go.in_int64, Go.int64_min, Go.int64_max, Go.to_int64.
  pose proof (Z.mod_pos_bound (z + 2 ^ 63) (2 ^ 64)). lia.
Qed.

Lemma to_int64_add_l (a b : Z) :
  Go.to_int64 (Go.to_int64 a + b) = Go.to_int64 (a + b).
Proof.
  unfold Go.to_int64.
  replace ((a + 2 ^ 63) mod 2 ^ 64 - 2 ^ 63 + b + 2 ^ 63)
    with ((a + 2 ^ 63) mod 2 ^ 64 + b) by lia.
  rewrite Zplus_mod_idemp_l. f_equal. f_equal. lia.
Qed.

Lemma to_int64_idem (z : Z) : Go.to_int64 (Go.to_int64 z) = Go.to_int64 z.
Proof. apply to_int64_id, to_int64_range. Qed.


Section OutcomeFacts.

Variable flate : Flate.
Variable w : World.

Lemma processFile_record (p : path) (st : Stats) :
  (processFile flate w p st).1 = record (outcome flate w p) st.
Proof.
  unfold processFile, decisionStep, outcome, sample, estimated, decide, apply.
  destruct (getFileSize w p) as [size|e]; [|reflexivity].
  destruct (size >? _); [reflexivity|]. cbn [negb].
  destruct (compressFileInMemory flate w p) as [[o c]|e]; [|reflexivity].
  destruct (notWorthIt o c).
  - destruct (disableCompression w p); reflexivity.
  - destruct (enableCompression w p); reflexivity.
Qed.

End OutcomeFacts.

(** ** Sums over the files *)

Lemma sumOver_app (f : path -> Z) (l1 l2 : list path) :
  sumOver f (l1 ++ l2) = sumOver f l1 + sumOver f l2.
Proof. induction l1 as [|p l1 IH]; cbn [sumOver app]; lia. Qed.

Lemma sumOver_perm (f : path -> Z) (l1 l2 : list path) :
  Permutation l1 l2 -> sumOver f l1 = sumOver f l2.
Proof. induction 1; cbn [sumOver]; lia. Qed.

Lemma sumOver_bounds (f : path -> Z) (l : list path) :
  (forall p, 0 <= f p <= 1) -> 0 <= sumOver f l <= Z.of_nat (length l).
Proof.
  intros Hf. induction l as [|p l IH]; cbn [sumOver length]; [lia|].
  specialize (Hf p). lia.
Qed.

Lemma sumOver_ext (f g : path -> Z) (l : list path) :
  (forall p, f p = g p) -> sumOver f l = sumOver g l.
Proof. intros E. induction l as [|p l IH]; cbn [sumOver]; [|rewrite E, IH]; reflexivity. Qed.

Lemma sumOver_plus (f g : path -> Z) (l : list path) :
  sumOver (fun p => f p + g p) l = sumOver f l + sumOver g l.
Proof. induction l as [|p l IH]; cbn [sumOver]; lia. Qed.

(** ** The counters in closed form *)

Section Tally.

Variable flate : Flate.
Variable w : World.

Lemma wfStats_zero : wfStats zeroStats.
Proof. unfold wfStats, Go.in_int64, Go.int64_min, Go.int64_max; cbn; lia. Qed.

Lemma tally_wf (l : list path) (st : Stats) : wfStats (tally flate w l st).
Proof. unfold wfStats, tally; cbn; auto using to_int64_range. Qed.

Lemma tally_nil (st : Stats) : wfStats st -> tally flate w [] st = st.
Proof.
  intros (H1 & H2 & H3 & H4). destruct st as [a b c d]; cbn in *.
  unfold tally; cbn. rewrite !Z.add_0_r, !to_int64_id by assumption.
  reflexivity.
Qed.

Lemma record_tally (p : path) (st : Stats) :
  wfStats st -> record (outcome flate w p) st = tally flate w [p] st.
Proof.
  intros (H1 & H2 & H3 & H4). destruct st as [a b c d]; cbn in *.
  unfold tally, record, Go.incr, Go.add64; cbn.
  destruct (outcome flate w p); cbn;
    rewrite ?Z.add_0_r, ?(to_int64_id a), ?(to_int64_id b),
      ?(to_int64_id c), ?(to_int64_id d) by assumption; reflexivity.
Qed.

Lemma tally_app (l1 l2 : list path) (st : Stats) :
  tally flate w (l1 ++ l2) st = tally flate w l2 (tally flate w l1 st).
Proof.
  unfold tally; cbn. rewrite !sumOver_app, !to_int64_add_l, !Z.add_assoc.
  reflexivity.
Qed.

Lemma tally_perm (l1 l2 : list path) (st : Stats) :
  Permutation l1 l2 -> tally flate w l1 st = tally flate w l2 st.
Proof.
  intros P. unfold tally.
  rewrite !(sumOver_perm _ l1 l2 P). reflexivity.
Qed.

Lemma processFile_tally (p : path) (st : Stats) :
  wfStats st -> (processFile flate w p st).1 = tally flate w [p] st.
Proof. intros H. rewrite processFile_record. apply record_tally, H. Qed.

Lemma worker_tally (l : list path) (st : Stats) :
  wfStats st -> (worker flate w l st).1 = tally flate w l st.
Proof.
  revert st. induction l as [|p l IH]; intros st H; cbn [worker].
  - cbn. symmetry. apply tally_nil, H.
  - pose proof (processFile_tally p st H) as E.
    destruct (processFile flate w p st) as [st1 ev]. cbn in E. subst st1.
    specialize (IH (tally flate w [p] st) (tally_wf _ _)).
    destruct (worker flate w l (tally flate w [p] st)) as [st2 evs].
    cbn in *. subst st2. symmetry. apply (tally_app [p] l).
Qed.

End Tally.

(** ** The pool *)

Lemma held_cons (x : WorkerState) (ws : list WorkerState) :
  held (x :: ws) = held [x] ++ held ws.
Proof. destruct x; reflexivity. Qed.

Lemma held_insert (ws : list WorkerState) (i : nat) (x y : WorkerState) :
  ws !! i = Some x ->
  Permutation (held [x] ++ held (<[i := y]> ws)) (held [y] ++ held ws).
Proof.
  revert i. induction ws as [|a ws IH]; intros i Hi; [discriminate|].
  destruct i as [|i]; cbn in Hi.
  - injection Hi as ->. cbn [insert list_insert].
    rewrite (held_cons y ws), (held_cons x ws).
    apply Permutation_app_swap_app.
  - cbn [insert list_insert].
    change (list_insert i y ws) with (<[i := y]> ws).
    rewrite (held_cons a (<[i := y]> ws)), (held_cons a ws).
    rewrite (Permutation_app_swap_app (held [x]) (held [a])).
    rewrite (Permutation_app_swap_app (held [y]) (held [a])).
    apply Permutation_app_head, IH, Hi.
Qed.

Lemma held_all_exited (ws : list WorkerState) :
  (forall i, (i < length ws)%nat -> ws !! i = Some Exited) -> held ws = [].
Proof.
  induction ws as [|a ws IH]; intros H; [reflexivity|].
  pose proof (H 0%nat ltac:(cbn; lia)) as H0. cbn in H0. injection H0 as ->.
  cbn [held]. apply IH. intros i Hi. apply (H (S i)). cbn; lia.
Qed.

Section PoolFacts.

Variable flate : Flate.
Variable w : World.

Lemma move_length (i : nat) (s : Pool) :
  length (workers (move flate w i s)) = length (workers s).
Proof.
  unfold move. destruct (workers s !! i) as [[| p |]|]; [| |reflexivity..].
  - destruct (queue s); cbn; apply length_insert.
  - destruct (processFile flate w p (stats s)); cbn; apply length_insert.
Qed.

Lemma move_exited (i j : nat) (s : Pool) :
  workers s !! j = Some Exited -> workers (move flate w i s) !! j = Some Exited.
Proof.
  intros Hj. unfold move.
  destruct (workers s !! i) as [[| p |]|] eqn:Hi; [| |assumption..].
  - assert (i <> j) by congruence.
    destruct (queue s); cbn; rewrite list_lookup_insert_ne; assumption.
  - assert (i <> j) by congruence.
    destruct (processFile flate w p (stats s)); cbn.
    rewrite list_lookup_insert_ne; assumption.
Qed.

Lemma move_inv (l : list path) (st0 : Stats) (i : nat) (s : Pool) :
  poolInv flate w l st0 s -> poolInv flate w l st0 (move flate w i s).
Proof.
  intros (Hwf & Htally & Hclosed). unfold poolInv, move.
  destruct (workers s !! i) as [[| p |]|] eqn:Hi; [| |(split; [|split]; assumption)..].
  - (* blocked on the channel *)
    destruct (queue s) as [|p rest] eqn:Hq.
    + split; [|split]; cbn; [assumption| |reflexivity].
      rewrite <- Htally. unfold pending; cbn. rewrite Hq.
      apply tally_perm, Permutation_app_tail.
      apply (held_insert _ _ _ Exited Hi).
    + split; [|split]; cbn; [assumption| |].
      * rewrite <- Htally. unfold pending; cbn. rewrite Hq.
        apply tally_perm.
        pose proof (held_insert _ _ _ (Holding p) Hi) as P. cbn in P.
        rewrite P. cbn. apply Permutation_middle.
      * intros j Hj. exfalso.
        destruct (Nat.eq_dec i j) as [->|Hne].
        -- rewrite list_lookup_insert_eq in Hj by (eapply lookup_lt_Some, Hi).
           discriminate.
        -- rewrite list_lookup_insert_ne in Hj by assumption.
           specialize (Hclosed j Hj). congruence.
  - (* holds a path: the critical section *)
    pose proof (processFile_tally flate w p (stats s) Hwf) as E.
    destruct (processFile flate w p (stats s)) as [st ev]. cbn in E. subst st.
    split; [|split]; cbn; [apply (tally_wf flate w [p] (stats s))| |].
    + rewrite <- Htally. unfold pending; cbn.
      rewrite <- (tally_app flate w [p]). apply tally_perm.
      pose proof (held_insert _ _ _ Waiting Hi) as P. cbn in P.
      cbn. rewrite <- P. reflexivity.
    + intros j Hj.
      destruct (Nat.eq_dec i j) as [->|Hne].
      * rewrite list_lookup_insert_eq in Hj by (eapply lookup_lt_Some, Hi).
        discriminate.
      * rewrite list_lookup_insert_ne in Hj by assumption.
        apply (Hclosed j Hj).
Qed.

End PoolFacts.

Section PoolProgress.

Variable flate : Flate.
Variable w : World.

Lemma exec_inv (l : list path) (st0 : Stats) (sched : list nat) (s : Pool) :
  poolInv flate w l st0 s -> poolInv flate w l st0 (exec flate w sched s).
Proof.
  revert s. induction sched as [|i sched IH]; intros s H; [exact H|].
  cbn. apply IH, move_inv, H.
Qed.

Lemma exec_length (sched : list nat) (s : Pool) :
  length (workers (exec flate w sched s)) = length (workers s).
Proof.
  revert s. induction sched as [|i sched IH]; intros s; [reflexivity|].
  cbn. change (length (workers (exec flate w sched (move flate w i s))) = length (workers s)).
  rewrite IH. apply move_length.
Qed.

Lemma exec_exited (sched : list nat) (j : nat) (s : Pool) :
  workers s !! j = Some Exited ->
  workers (exec flate w sched s) !! j = Some Exited.
Proof.
  revert s. induction sched as [|i sched IH]; intros s H; [exact H|].
  cbn. apply IH, move_exited, H.
Qed.

Lemma stepsLeft_move (i : nat) (s : Pool) :
  (i < length (workers s))%nat ->
  (stepsLeft i (move flate w i s) <= pred (stepsLeft i s))%nat.
Proof.
  intros Hi. unfold stepsLeft at 2. unfold move.
  destruct (workers s !! i) as [[| p |]|] eqn:E.
  - destruct (queue s) as [|q rest]; unfold stepsLeft; cbn;
      rewrite list_lookup_insert_eq by assumption; cbn; lia.
  - destruct (processFile flate w p (stats s)) as [st ev].
    unfold stepsLeft; cbn.
    rewrite list_lookup_insert_eq by assumption; cbn; lia.
  - unfold stepsLeft. rewrite E. lia.
  - unfold stepsLeft. rewrite E. lia.
Qed.

Lemma stepsLeft_zero (i : nat) (s : Pool) :
  (i < length (workers s))%nat -> stepsLeft i s = 0%nat ->
  workers s !! i = Some Exited.
Proof.
  intros Hi. unfold stepsLeft.
  destruct (workers s !! i) as [[| p |]|] eqn:E; try lia; [reflexivity|].
  apply lookup_ge_None in E. lia.
Qed.

Lemma exec_replicate_exits (k i : nat) (s : Pool) :
  (i < length (workers s))%nat -> (stepsLeft i s <= k)%nat ->
  workers (exec flate w (replicate k i) s) !! i = Some Exited.
Proof.
  revert s. induction k as [|k IH]; intros s Hi Hk.
  - cbn. apply stepsLeft_zero; [assumption|lia].
  - cbn. apply IH.
    + rewrite move_length. assumption.
    + pose proof (stepsLeft_move i s Hi). lia.
Qed.

Lemma runToExit_exits (i : nat) (s : Pool) :
  (i < length (workers s))%nat ->
  workers (runToExit flate w i s) !! i = Some Exited.
Proof.
  intros Hi. apply exec_replicate_exits; [assumption|].
  unfold stepsLeft. destruct (workers s !! i) as [[| p |]|]; lia.
Qed.

Lemma waitAll_from (idxs : list nat) (s : Pool) :
  (forall i, In i idxs -> (i < length (workers s))%nat) ->
  forall i, In i idxs \/ workers s !! i = Some Exited ->
    workers (fold_left (fun s i => runToExit flate w i s) idxs s) !! i
    = Some Exited.
Proof.
  revert s. induction idxs as [|j idxs IH]; intros s Hlt i Hi.
  - cbn. destruct Hi as [[]|Hi]. exact Hi.
  - cbn [fold_left]. apply IH.
    + intros k Hk. unfold runToExit. rewrite exec_length.
      apply Hlt. right. exact Hk.
    + destruct Hi as [[->|Hi]|Hi].
      * right. apply runToExit_exits, Hlt. left. reflexivity.
      * left. exact Hi.
      * right. apply exec_exited, Hi.
Qed.

Lemma waitAll_inv (l : list path) (st0 : Stats) (s : Pool) :
  poolInv flate w l st0 s -> poolInv flate w l st0 (waitAll flate w s).
Proof.
  unfold waitAll. generalize (seq 0 (length (workers s))). intros idxs.
  revert s. induction idxs as [|j idxs IH]; intros s H; [exact H|].
  cbn [fold_left]. apply IH. apply exec_inv, H.
Qed.

Lemma waitAll_length (s : Pool) :
  length (workers (waitAll flate w s)) = length (workers s).
Proof.
  unfold waitAll. generalize (seq 0 (length (workers s))). intros idxs.
  revert s. induction idxs as [|j idxs IH]; intros s; [reflexivity|].
  cbn [fold_left]. rewrite IH. apply exec_length.
Qed.

Lemma waitAll_exited (s : Pool) (i : nat) :
  (i < length (workers s))%nat ->
  workers (waitAll flate w s) !! i = Some Exited.
Proof.
  intros Hi. apply waitAll_from.
  - intros k Hk. apply in_seq in Hk. lia.
  - left. apply in_seq. lia.
Qed.

Lemma startPool_inv (n : nat) (l : list path) (st0 : Stats) :
  wfStats st0 -> poolInv flate w l st0 (startPool n l st0).
Proof.
  intros H. split; [exact H|]. split.
  - unfold pending; cbn. replace (held (replicate n Waiting)) with (@nil path).
    + reflexivity.
    + induction n as [|n IH]; [reflexivity|exact IH].
  - intros i Hi. cbn in Hi. apply lookup_replicate in Hi.
    destruct Hi as [Hi _]. discriminate.
Qed.

(** Whatever the schedule, a pool with at least one worker ends with every
    worker exited, the channel empty, and the counters in closed form. *)
Lemma runPool_drained (n : nat) (sched : list nat) (l : list path)
    (st0 : Stats) :
  drained (runPool flate w n sched l st0) = true.
Proof.
  unfold drained, runPool. apply forallb_forall. intros x Hx.
  apply list_elem_of_In, list_elem_of_lookup in Hx. destruct Hx as [i Hi].
  pose proof (lookup_lt_Some _ _ _ Hi) as Hlt.
  rewrite waitAll_length in Hlt.
  rewrite (waitAll_exited _ i Hlt) in Hi. injection Hi as <-. reflexivity.
Qed.

Lemma runPool_stats (n : nat) (sched : list nat) (l : list path)
    (st0 : Stats) :
  (0 < n)%nat -> wfStats st0 ->
  stats (runPool flate w n sched l st0) = tally flate w l st0.
Proof.
  intros Hn Hwf. unfold runPool.
  set (s0 := exec flate w sched (startPool n l st0)).
  assert (Hinv : poolInv flate w l st0 (waitAll flate w s0))
    by apply waitAll_inv, exec_inv, startPool_inv, Hwf.
  assert (Hlen : length (workers s0) = n).
  { unfold s0. rewrite exec_length. cbn. apply length_replicate. }
  destruct Hinv as (Hwf' & Htally & Hclosed).
  assert (Hq : queue (waitAll flate w s0) = []).
  { apply (Hclosed 0%nat), waitAll_exited. lia. }
  assert (Hh : held (workers (waitAll flate w s0)) = []).
  { apply held_all_exited. intros i Hi. rewrite waitAll_length in Hi.
    apply waitAll_exited, Hi. }
  unfold pending in Htally. rewrite Hq, Hh in Htally. cbn [app] in Htally.
  rewrite tally_nil in Htally by assumption. exact Htally.
Qed.

End PoolProgress.

(** ** The statistics of a run *)

Section RunStatistics.

Variable flate : Flate.
Variable w : World.

Lemma counted_split (o : Outcome) :
  counted o = compressed o + decompressed o + applyFailed o.
Proof. destruct o; reflexivity. Qed.

Lemma counted_bounds (o : Outcome) : 0 <= counted o <= 1.
Proof. destruct o; cbn; lia. Qed.

Lemma compressed_bounds (o : Outcome) : 0 <= compressed o <= 1.
Proof. destruct o; cbn; lia. Qed.

Lemma decompressed_bounds (o : Outcome) : 0 <= decompressed o <= 1.
Proof. destruct o; cbn; lia. Qed.

Lemma applyFailed_bounds (o : Outcome) : 0 <= applyFailed o <= 1.
Proof. destruct o; cbn; lia. Qed.

(** With fewer than 2^63 files no counter wraps. *)
Lemma tally_exact (l : list path) :
  Z.of_nat (length l) < 2 ^ 63 ->
  totalFilesProcessed (tally flate w l zeroStats)
    = sumOver (fun p => counted (outcome flate w p)) l
  /\ totalFilesCompressed (tally flate w l zeroStats)
    = sumOver (fun p => compressed (outcome flate w p)) l
  /\ totalFilesDecompressed (tally flate w l zeroStats)
    = sumOver (fun p => decompressed (outcome flate w p)) l.
Proof.
  intros Hlen. cbn.
  pose proof (sumOver_bounds (fun p => counted (outcome flate w p)) l
                (fun p => counted_bounds _)).
  pose proof (sumOver_bounds (fun p => compressed (outcome flate w p)) l
                (fun p => compressed_bounds _)).
  pose proof (sumOver_bounds (fun p => decompressed (outcome flate w p)) l
                (fun p => decompressed_bounds _)).
  repeat split; apply to_int64_id;
    unfold Go.in_int64, Go.int64_min, Go.int64_max; lia.
Qed.

Lemma sumOver_counted_split (l : list path) :
  sumOver (fun p => counted (outcome flate w p)) l
  = sumOver (fun p => compressed (outcome flate w p)) l
    + sumOver (fun p => decompressed (outcome flate w p)) l
    + filesApplyFailed flate w l.
Proof.
  unfold filesApplyFailed. rewrite <- !sumOver_plus.
  apply sumOver_ext. intros p. apply counted_split.
Qed.

Lemma to_int64_add_r (a b : Z) :
  Go.to_int64 (a + Go.to_int64 b) = Go.to_int64 (a + b).
Proof. rewrite Z.add_comm, to_int64_add_l. f_equal. lia. Qed.

Lemma to_int64_sumOver (f g : path -> Z) (l : list path) :
  (forall p, Go.to_int64 (f p) = Go.to_int64 (g p)) ->
  Go.to_int64 (sumOver f l) = Go.to_int64 (sumOver g l).
Proof.
  intros E. induction l as [|p l IH]; cbn [sumOver]; [reflexivity|].
  rewrite <- to_int64_add_l, <- to_int64_add_r, E, IH.
  rewrite to_int64_add_l, to_int64_add_r. reflexivity.
Qed.

Lemma bytesSaved_outcome (p : path) :
  Go.to_int64 (bytesSaved (outcome flate w p))
  = Go.to_int64
      match sample flate w p with
      | Some (originalSize, compressedSize) =>
          match decide originalSize compressedSize,
                apply w p (decide originalSize compressedSize) with
          | Enable, None => originalSize - compressedSize
          | _, _ => 0
          end
      | None => 0
      end.
Proof.
  unfold outcome. destruct (sample flate w p) as [[o c]|]; [|reflexivity].
  destruct (decide o c); cbn;
    [destruct (enableCompression w p)|destruct (disableCompression w p)];
    cbn; try reflexivity.
  unfold spaceSaved, Go.sub64. apply to_int64_idem.
Qed.

End RunStatistics.

(** C1, as stated, fails: a file whose estimation fails is left before
    [totalFilesProcessed] is incremented, so it is counted among the failed
    files but not among the processed ones. *)
Lemma processed_includes_estimation_failures_counterexample :
  ~ (forall (flate : Flate) (w : World) (n : nat) (sched : list nat)
            (l : list path),
        (0 < n)%nat ->
        let st := stats (runPool flate w n sched l zeroStats) in
        totalFilesProcessed st
        = totalFilesCompressed st + totalFilesDecompressed st
          + filesFailed flate w l).
Proof.
  intros H.
  specialize (H zeroSkipFlate demoWorld 1%nat [] ["gone"%string]
                ltac:(lia)).
  vm_compute in H. discriminate H.
Qed.

Lemma sample_None (flate : Flate) (w : World) (p : path) :
  sample flate w p = None
  <-> (exists e, getFileSize w p = Err e)
      \/ (exists size, getFileSize w p = Ok size
                       /\ size > Go.int64_of_uint64 (Frees w p))
      \/ (exists e, compressFileInMemory flate w p = Err e).
Proof.
  unfold sample, estimated.
  destruct (getFileSize w p) as [size|e0].
  - destruct (Z.gtb_spec size (Go.int64_of_uint64 (Frees w p))) as [Hgt|Hle];
      cbn [negb].
    + split; [intros _|reflexivity]. right. left. exists size.
      split; [reflexivity|lia].
    + destruct (compressFileInMemory flate w p) as [[o c]|e].
      * split; [discriminate|].
        intros [[e H]|[(size' & H & Hgt)|[e H]]]; try discriminate H.
        injection H as <-. lia.
      * split; [intros _|reflexivity]. right. right. exists e. reflexivity.
  - split; [intros _|reflexivity]. left. exists e0. reflexivity.
Qed.

Lemma processFile_left_early (flate : Flate) (w : World) (p : path)
    (st : Stats) :
  sample flate w p = None -> (processFile flate w p st).1 = st.
Proof.
  intros H. rewrite processFile_record. unfold outcome. rewrite H.
  reflexivity.
Qed.

Lemma counted_decided (flate : Flate) (w : World) (l : list path) :
  sumOver (fun p => counted (outcome flate w p)) l = filesDecided flate w l.
Proof.
  unfold filesDecided. apply sumOver_ext. intros p. unfold outcome.
  destruct (sample flate w p) as [[o c]|]; [|reflexivity].
  cbv zeta. destruct (apply w p (decide o c)); [reflexivity|].
  destruct (decide o c); reflexivity.
Qed.

(** C1, amended: after the pool has drained, [totalFilesProcessed] is the
    sum of [totalFilesCompressed], [totalFilesDecompressed] and the number
    of files whose controller call failed.  A file whose size query or
    estimation failed, or that the memory guard skipped, is counted in none
    of the counters: [totalFilesProcessed] is the number of files that
    reached the decision, and a [processFile] call on a file that does not
    reach it leaves the four counters as they were. *)
Theorem processed_is_compressed_decompressed_applyFailed
    (flate : Flate) (w : World) (n : nat) (sched : list nat) (l : list path) :
  (0 < n)%nat -> Z.of_nat (length l) < 2 ^ 63 ->
  let s := runPool flate w n sched l zeroStats in
  drained s = true
  /\ totalFilesProcessed (stats s)
     = totalFilesCompressed (stats s) + totalFilesDecompressed (stats s)
       + filesApplyFailed flate w l
  /\ totalFilesProcessed (stats s) = filesDecided flate w l
  /\ (forall p,
        sample flate w p = None
        <-> (exists e, getFileSize w p = Err e)
            \/ (exists size, getFileSize w p = Ok size
                             /\ size > Go.int64_of_uint64 (Frees w p))
            \/ (exists e, compressFileInMemory flate w p = Err e))
  /\ (forall p st,
        (exists e, getFileSize w p = Err e)
        \/ (exists size, getFileSize w p = Ok size
                         /\ size > Go.int64_of_uint64 (Frees w p))
        \/ (exists e, compressFileInMemory flate w p = Err e) ->
        (processFile flate w p st).1 = st).
Proof.
  intros Hn Hlen s. split; [apply runPool_drained|].
  unfold s. rewrite (runPool_stats flate w n sched l zeroStats Hn wfStats_zero).
  destruct (tally_exact flate w l Hlen) as (-> & -> & ->).
  split; [apply sumOver_counted_split|].
  split; [apply counted_decided|].
  split; [intros p; apply sample_None|].
  intros p st H. apply processFile_left_early, sample_None, H.
Qed.

Lemma processed_is_compressed_decompressed_applyFailed_witness :
  let s := runPool zeroSkipFlate demoWorld 3 [0; 1; 2; 1; 0]%nat demoPaths
             zeroStats in
  drained s = true
  /\ totalFilesProcessed (stats s) = 1 + 1 + 1
  /\ filesDecided zeroSkipFlate demoWorld demoPaths = 3
  /\ (processFile zeroSkipFlate demoWorld "gone"%string (stats s)).1 = stats s
  /\ (processFile zeroSkipFlate demoWorld "huge"%string (stats s)).1 = stats s.
Proof.
  destruct (processed_is_compressed_decompressed_applyFailed
              zeroSkipFlate demoWorld 3 [0; 1; 2; 1; 0]%nat demoPaths)
    as (H1 & H2 & H3 & _ & H5).
  - lia.
  - vm_compute. reflexivity.
  - cbv zeta. split; [exact H1|]. split; [rewrite H2; vm_compute; reflexivity|].
    split; [vm_compute; reflexivity|]. split.
    + apply H5. right. right. exists ErrPermission. reflexivity.
    + apply H5. right. left. exists 5000. split; [reflexivity|].
      vm_compute. reflexivity.
Defined.

(** C7: after the pool has drained, [totalSpaceSaved] is the sum of
    [originalSize - compressedSize] over the files that received Enable and
    whose controller call succeeded: as an [int64] always, and as a
    mathematical integer whenever that sum fits in an [int64]. *)
Theorem totalSpaceSaved_is_sum_over_enabled
    (flate : Flate) (w : World) (n : nat) (sched : list nat) (l : list path) :
  (0 < n)%nat ->
  let s := runPool flate w n sched l zeroStats in
  totalSpaceSaved (stats s) = Go.to_int64 (savedByEnabled flate w l)
  /\ (Go.in_int64 (savedByEnabled flate w l) ->
      totalSpaceSaved (stats s) = savedByEnabled flate w l).
Proof.
  intros Hn s.
  assert (E : totalSpaceSaved (stats s)
              = Go.to_int64 (savedByEnabled flate w l)).
  { unfold s.
    rewrite (runPool_stats flate w n sched l zeroStats Hn wfStats_zero).
    cbn. unfold savedByEnabled. apply to_int64_sumOver.
    intros p. apply bytesSaved_outcome. }
  split; [exact E|]. intros Hfit. rewrite E. apply to_int64_id, Hfit.
Qed.

Lemma totalSpaceSaved_is_sum_over_enabled_witness :
  let s := runPool zeroSkipFlate demoWorld 3 [2; 2; 0; 1]%nat demoPaths
             zeroStats in
  totalSpaceSaved (stats s) = 95 /\ savedByEnabled zeroSkipFlate demoWorld demoPaths = 95.
Proof.
  pose proof (totalSpaceSaved_is_sum_over_enabled zeroSkipFlate demoWorld 3
                [2; 2; 0; 1]%nat demoPaths ltac:(lia)) as [_ H].
  assert (F : Go.in_int64 (savedByEnabled zeroSkipFlate demoWorld demoPaths))
    by (vm_compute; split; discriminate).
  specialize (H F). cbv zeta. rewrite H. split; vm_compute; reflexivity.
Defined.

Lemma sumOver_ext_in (f g : path -> Z) (l : list path) :
  (forall p, In p l -> f p = g p) -> sumOver f l = sumOver g l.
Proof.
  induction l as [|p l IH]; intros E; cbn [sumOver]; [reflexivity|].
  rewrite (E p (or_introl eq_refl)), IH; [reflexivity|].
  intros q Hq. apply E. right. exact Hq.
Qed.

Lemma outcome_ext (flate : Flate) (w1 w2 : World) (p : path) :
  sample flate w1 p = sample flate w2 p ->
  (forall d, apply w1 p d = apply w2 p d) ->
  outcome flate w1 p = outcome flate w2 p.
Proof.
  intros Hs Ha. unfold outcome. rewrite Hs.
  destruct (sample flate w2 p) as [[o c]|]; [|reflexivity].
  cbv zeta. rewrite Ha. reflexivity.
Qed.

Lemma tally_ext (flate : Flate) (w1 w2 : World) (l : list path) (st : Stats) :
  (forall p, In p l -> outcome flate w1 p = outcome flate w2 p) ->
  tally flate w1 l st = tally flate w2 l st.
Proof.
  intros E. unfold tally.
  rewrite (sumOver_ext_in (fun p => counted (outcome flate w1 p))
             (fun p => counted (outcome flate w2 p)) l)
    by (intros p Hp; rewrite (E p Hp); reflexivity).
  rewrite (sumOver_ext_in (fun p => compressed (outcome flate w1 p))
             (fun p => compressed (outcome flate w2 p)) l)
    by (intros p Hp; rewrite (E p Hp); reflexivity).
  rewrite (sumOver_ext_in (fun p => decompressed (outcome flate w1 p))
             (fun p => decompressed (outcome flate w2 p)) l)
    by (intros p Hp; rewrite (E p Hp); reflexivity).
  rewrite (sumOver_ext_in (fun p => bytesSaved (outcome flate w1 p))
             (fun p => bytesSaved (outcome flate w2 p)) l)
    by (intros p Hp; rewrite (E p Hp); reflexivity).
  reflexivity.
Qed.

(** C9, as stated, fails: the files, their estimation results and their
    controller results are the same in the two runs, but the reading of
    [memStat.Frees] taken by [processFile] is not fixed by the files; with a
    reading of 1000 the file [zeros] is processed, with a reading of 50 it
    is skipped, and the two runs end with different counters. *)
Lemma statistics_depend_on_memory_reading_counterexample :
  ~ (forall (flate : Flate) (w1 wN : World) (n : nat)
            (sched1 schedN : list nat) (l : list path),
        (0 < n)%nat ->
        (forall p,
           getFileSize w1 p = getFileSize wN p
           /\ compressFileInMemory flate w1 p
              = compressFileInMemory flate wN p
           /\ forall d, apply w1 p d = apply wN p d) ->
        stats (runPool flate w1 1 sched1 l zeroStats)
        = stats (runPool flate wN n schedN l zeroStats)).
Proof.
  intros H.
  specialize (H zeroSkipFlate demoWorld (withFrees demoWorld 50) 2%nat [] []
                ["zeros"%string] ltac:(lia)).
  assert (Hsame : forall p,
             getFileSize demoWorld p = getFileSize (withFrees demoWorld 50) p
             /\ compressFileInMemory zeroSkipFlate demoWorld p
                = compressFileInMemory zeroSkipFlate
                    (withFrees demoWorld 50) p
             /\ forall d, apply demoWorld p d
                          = apply (withFrees demoWorld 50) p d).
  { intros p. split; [reflexivity|]. split; [reflexivity|].
    intros []; reflexivity. }
  specialize (H Hsame). vm_compute in H. discriminate H.
Qed.

(** C9, amended: take a run with one worker on the machine [w1] and a run
    with [n] workers on the machine [wN], over the same files handed out in
    any order and under any schedules.  If every file has in both runs the
    same outcome of the size query and of the memory guard (the comparison
    of its size with the [memStat.Frees] reading), the same estimation
    result and the same controller results, the two runs end with the same
    four counters. *)
Theorem statistics_independent_of_pool_size_and_order
    (flate : Flate) (w1 wN : World) (n : nat) (sched1 schedN : list nat)
    (l1 lN : list path) :
  (0 < n)%nat -> Permutation l1 lN ->
  (forall p, In p l1 ->
     estimated w1 p = estimated wN p
     /\ compressFileInMemory flate w1 p = compressFileInMemory flate wN p
     /\ forall d, apply w1 p d = apply wN p d) ->
  stats (runPool flate w1 1 sched1 l1 zeroStats)
  = stats (runPool flate wN n schedN lN zeroStats).
Proof.
  intros Hn P Hsame.
  rewrite (runPool_stats flate w1 1 sched1 l1 zeroStats ltac:(lia)
             wfStats_zero).
  rewrite (runPool_stats flate wN n schedN lN zeroStats Hn wfStats_zero).
  rewrite (tally_perm flate wN lN l1 zeroStats (Permutation_sym P)).
  apply tally_ext. intros p Hp.
  destruct (Hsame p Hp) as (Hg & He & Ha). apply outcome_ext; [|exact Ha].
  unfold sample. rewrite Hg, He. reflexivity.
Qed.

Lemma statistics_independent_of_pool_size_and_order_witness :
  stats (runPool zeroSkipFlate demoWorld 1 [0; 0; 0]%nat demoPaths zeroStats)
  = stats (runPool zeroSkipFlate (withFrees demoWorld 2000) 4
             [3; 1; 0; 1; 2]%nat (rev demoPaths) zeroStats).
Proof.
  apply (statistics_independent_of_pool_size_and_order zeroSkipFlate
           demoWorld (withFrees demoWorld 2000) 4 [0; 0; 0]%nat
           [3; 1; 0; 1; 2]%nat demoPaths (rev demoPaths)).
  - lia.
  - apply Permutation_rev.
  - intros p Hp. cbn in Hp.
    destruct Hp as [<-|[<-|[<-|[<-|[<-|[]]]]]];
      (split; [vm_compute; reflexivity|];
       split; [reflexivity|intros []; reflexivity]).
Defined.

(** C10: after every [processFile] call of a run (the counters start at
    zero and [l] lists the files of the earlier calls),
    [totalFilesCompressed + totalFilesDecompressed <= totalFilesProcessed];
    a call whose controller call fails leaves [totalFilesCompressed],
    [totalFilesDecompressed] and [totalSpaceSaved] as they were and adds one
    to [totalFilesProcessed]. *)
Theorem counters_ordered_after_each_call
    (flate : Flate) (w : World) (l : list path) (p : path) :
  Z.of_nat (length l) < 2 ^ 63 - 1 ->
  let st := (worker flate w l zeroStats).1 in
  let st' := (processFile flate w p st).1 in
  totalFilesCompressed st' + totalFilesDecompressed st'
    <= totalFilesProcessed st'
  /\ (forall originalSize compressedSize e,
        sample flate w p = Some (originalSize, compressedSize) ->
        apply w p (decide originalSize compressedSize) = Some e ->
        totalFilesCompressed st' = totalFilesCompressed st
        /\ totalFilesDecompressed st' = totalFilesDecompressed st
        /\ totalSpaceSaved st' = totalSpaceSaved st
        /\ totalFilesProcessed st' = totalFilesProcessed st + 1).
Proof.
  intros Hlen st st'.
  assert (Est : st = tally flate w l zeroStats)
    by apply worker_tally, wfStats_zero.
  assert (Est' : st' = tally flate w (l ++ [p]) zeroStats).
  { unfold st'. rewrite processFile_tally by (rewrite Est; apply tally_wf).
    rewrite Est. symmetry. apply tally_app. }
  assert (Hlen' : Z.of_nat (length (l ++ [p])) < 2 ^ 63).
  { rewrite length_app. cbn [length]. lia. }
  split.
  - rewrite Est'.
    destruct (tally_exact flate w (l ++ [p]) Hlen') as (-> & -> & ->).
    rewrite sumOver_counted_split.
    pose proof (sumOver_bounds
                  (fun q => applyFailed (outcome flate w q)) (l ++ [p])
                  (fun q => applyFailed_bounds _)).
    unfold filesApplyFailed. lia.
  - intros o c e Hs Ha. unfold st'. rewrite processFile_record.
    unfold outcome. rewrite Hs. cbv zeta. rewrite Ha. cbn.
    repeat split. unfold Go.incr. rewrite to_int64_id; [reflexivity|].
    rewrite Est.
    destruct (tally_exact flate w l ltac:(lia)) as (-> & _).
    pose proof (sumOver_bounds (fun q => counted (outcome flate w q)) l
                  (fun q => counted_bounds _)).
    unfold Go.in_int64, Go.int64_min, Go.int64_max. lia.
Qed.

Lemma counters_ordered_after_each_call_witness :
  let st := (worker zeroSkipFlate demoWorld ["zeros"; "noise"]%string
               zeroStats).1 in
  let st' := (processFile zeroSkipFlate demoWorld "locked"%string st).1 in
  totalFilesCompressed st' + totalFilesDecompressed st'
    <= totalFilesProcessed st'
  /\ totalFilesCompressed st' = totalFilesCompressed st
  /\ totalFilesDecompressed st' = totalFilesDecompressed st
  /\ totalSpaceSaved st' = totalSpaceSaved st
  /\ totalFilesProcessed st' = totalFilesProcessed st + 1.
Proof.
  destruct (counters_ordered_after_each_call zeroSkipFlate demoWorld
              ["zeros"; "noise"]%string "locked"%string)
    as [H1 H2].
  - vm_compute. reflexivity.
  - split; [exact H1|].
    apply (H2 100 5 ErrPermission); vm_compute; reflexivity.
Defined.

(** ** The memory guard of [processFile] *)

(** C5, as stated, fails: the same file is estimated under one reading of
    [memStat.Frees] and skipped under another. *)
Lemma estimation_ignores_memory_reading_counterexample :
  ~ (forall (w : World) (p : path) (frees1 frees2 : Z),
        Go.in_uint64 frees1 -> Go.in_uint64 frees2 ->
        estimated (withFrees w frees1) p = estimated (withFrees w frees2) p).
Proof.
  intros H.
  specialize (H demoWorld "zeros"%string 1000 50).
  assert (H1 : Go.in_uint64 1000) by (unfold Go.in_uint64; lia).
  assert (H2 : Go.in_uint64 50) by (unfold Go.in_uint64; lia).
  specialize (H H1 H2). vm_compute in H. discriminate H.
Qed.

(** C5, amended: a file whose size can be read is handed to the estimator
    exactly when that size does not exceed [int64(memStat.Frees)]; a larger
    file is reported as too large and skipped, and the counters are left as
    they were. *)
Theorem memory_guard_gates_estimation
    (flate : Flate) (w : World) (p : path) (st : Stats) (size : Z) :
  getFileSize w p = Ok size ->
  (estimated w p = true <-> size <= Go.int64_of_uint64 (Frees w p))
  /\ (size > Go.int64_of_uint64 (Frees w p) ->
      processFile flate w p st = (st, [PrintTooLarge p]))
  /\ (size <= Go.int64_of_uint64 (Frees w p) ->
      processFile flate w p st
      = match compressFileInMemory flate w p with
        | Err e => (st, [PrintEstimateError p e])
        | Ok (originalSize, compressedSize) =>
            decisionStep w p originalSize compressedSize st
        end).
Proof.
  intros Hsize. unfold estimated, processFile. rewrite Hsize.
  destruct (Z.gtb_spec size (Go.int64_of_uint64 (Frees w p))) as [Hgt|Hle];
    cbn [negb].
  - split; [split; [discriminate|lia]|]. split; [reflexivity|lia].
  - split; [split; [lia|reflexivity]|]. split; [lia|reflexivity].
Qed.

Lemma memory_guard_gates_estimation_witness :
  estimated demoWorld "huge"%string = false
  /\ processFile zeroSkipFlate demoWorld "huge"%string zeroStats
     = (zeroStats, [PrintTooLarge "huge"%string]).
Proof.
  destruct (memory_guard_gates_estimation zeroSkipFlate demoWorld
              "huge"%string zeroStats 5000) as (H1 & H2 & _).
  - reflexivity.
  - split.
    + destruct (estimated demoWorld "huge"%string); [|reflexivity].
      exfalso. destruct H1 as [H1 _]. specialize (H1 eq_refl).
      vm_compute in H1. apply H1. reflexivity.
    + apply H2. vm_compute. reflexivity.
Defined.

(** ** The command line *)

(** C4, as stated, fails: with a missing argument the program prints the
    usage line and returns from [main], which ends the process with exit
    code zero. *)
Lemma usage_error_exits_nonzero_counterexample :
  ~ (forall (flate : Flate) (w : World) (Join : path -> string -> path)
            (args : list string) (sched : list nat) (merge : list bool)
            (tree : FsNode),
        args <> [] -> length args <> 2%nat ->
        exists code,
          exit (main flate w Join args sched merge tree) = ExitCode code
          /\ code <> 0).
Proof.
  intros H.
  destruct (H zeroSkipFlate demoWorld backslashJoin
              ["ntfs_pancake"%string] [] [] (File true))
    as (code & Hexit & Hcode).
  - discriminate.
  - cbn. lia.
  - cbn in Hexit. injection Hexit as <-. apply Hcode. reflexivity.
Qed.

(** C4, amended: with a missing or an extra argument the program prints the
    usage line, processes no file and exits with code zero; an invocation
    with exactly one argument runs the scan, prints the summary of the final
    counters last and exits with code zero whatever happened to the files.
    The program has no non-zero exit code. *)
Theorem main_always_exits_zero
    (flate : Flate) (w : World) (Join : path -> string -> path)
    (args : list string) (sched : list nat) (merge : list bool)
    (tree : FsNode) :
  args <> [] ->
  let run := main flate w Join args sched merge tree in
  exit run = ExitCode 0
  /\ (length args <> 2%nat ->
      output run = [PrintUsage (hd ""%string args)] /\ final run = zeroStats)
  /\ (length args = 2%nat ->
      final run
        = (scanAndCompressFolder flate w Join sched merge
             (nth 1 args ""%string) tree zeroStats).1
      /\ exists out,
           output run
           = out ++ [PrintSummary (totalFilesProcessed (final run))
                                  (totalFilesCompressed (final run))
                                  (totalFilesDecompressed (final run))
                                  (totalSpaceSaved (final run))]).
Proof.
  intros Hne run. unfold run, main.
  destruct (Nat.eqb_spec (length args) 2) as [E|NE]; cbn [negb].
  - destruct (scanAndCompressFolder flate w Join sched merge
                (nth 1 args ""%string) tree zeroStats) as [st out].
    cbn. split; [reflexivity|]. split; [intros C; contradiction|].
    intros _. split; [reflexivity|]. exists out. reflexivity.
  - destruct args as [|prog rest]; [contradiction|].
    cbn. split; [reflexivity|]. split; [intros _; split; reflexivity|].
    intros C. contradiction.
Qed.

Lemma main_always_exits_zero_witness :
  let run := main zeroSkipFlate demoWorld backslashJoin
               ["ntfs_pancake"; "C:\data"; "extra"]%string [] []
               (File true) in
  exit run = ExitCode 0
  /\ output run = [PrintUsage "ntfs_pancake"%string]
  /\ final run = zeroStats.
Proof.
  destruct (main_always_exits_zero zeroSkipFlate demoWorld backslashJoin
              ["ntfs_pancake"; "C:\data"; "extra"]%string [] [] (File true))
    as (H1 & H2 & _).
  - discriminate.
  - split; [exact H1|]. apply H2. cbn. lia.
Defined.

(** ** The traversal *)

Lemma FsNode_nested_ind (P : FsNode -> Prop) :
  (forall e, P (Missing e)) ->
  (forall regular, P (File regular)) ->
  (forall listing entries,
      Forall (fun ne => P ne.2) entries -> P (Dir listing entries)) ->
  forall node, P node.
Proof.
  intros HM HF HD. fix IH 1. intros [e|regular|listing entries].
  - apply HM.
  - apply HF.
  - apply HD. induction entries as [|[name child] rest IHrest].
    + constructor.
    + constructor; [apply IH|apply IHrest].
Qed.

Lemma regularFiles_app (a b : list (path * Visit)) :
  regularFiles (a ++ b) = regularFiles a ++ regularFiles b.
Proof.
  induction a as [|[p [[]| |e]] a IH]; cbn; rewrite ?IH; reflexivity.
Qed.

Lemma firstError_app (a b : list (path * Visit)) :
  firstError (a ++ b)
  = match firstError a with Some x => Some x | None => firstError b end.
Proof.
  induction a as [|[p [r| |e]] a IH]; cbn; rewrite ?IH; reflexivity.
Qed.

Lemma beforeError_app (a b : list (path * Visit)) :
  beforeError (a ++ b)
  = match firstError a with
    | Some _ => beforeError a
    | None => a ++ beforeError b
    end.
Proof.
  induction a as [|[p [r| |e]] a IH]; cbn; rewrite ?IH;
    try destruct (firstError a); reflexivity.
Qed.

Lemma beforeError_all (a : list (path * Visit)) :
  firstError a = None -> beforeError a = a.
Proof.
  induction a as [|[p [r| |e]] a IH]; cbn; intros H;
    rewrite ?IH by assumption; try reflexivity; discriminate.
Qed.

Lemma keepsGoing_Failed (child : FsNode) (e : error) :
  keepsGoing child (Failed e) = false.
Proof. destruct child; cbn; rewrite ?andb_false_r; reflexivity. Qed.

(** [walk] with the program's function stops at the first error of the
    traversal order, having sent the regular files met before it. *)
Lemma walk_walkFn (Join : path -> string -> path) (node : FsNode) :
  forall (p : path) (sent : list path) (out : list Event),
  walk Join walkFn p node (sent, out)
  = match firstError (preorder Join p node) with
    | None =>
        ((sent ++ regularFiles (beforeError (preorder Join p node)), out),
         None)
    | Some (q, e) =>
        ((sent ++ regularFiles (beforeError (preorder Join p node)),
          out ++ [PrintAccessError q e]), Some (Failed e))
    end.
Proof.
  induction node as [e|regular|listing entries IH] using FsNode_nested_ind;
    intros p sent out.
  - cbn. rewrite app_nil_r. reflexivity.
  - destruct regular; cbn; rewrite ?app_nil_r; reflexivity.
  - destruct listing as [e|].
    + cbn. rewrite app_nil_r. reflexivity.
    + cbn -[beforeError firstError regularFiles].
      cbn [beforeError firstError regularFiles].
      revert sent out.
      induction IH as [|[name child] rest Hchild _ IHrest]; intros sent out.
      * cbn. rewrite app_nil_r. reflexivity.
      * cbn [snd] in Hchild. rewrite Hchild.
        rewrite firstError_app, beforeError_app.
        destruct (firstError (preorder Join (Join p name) child))
          as [[q e]|] eqn:E.
        -- rewrite keepsGoing_Failed. reflexivity.
        -- rewrite IHrest. rewrite regularFiles_app, app_assoc.
           rewrite (beforeError_all _ E). reflexivity.
Qed.

(** C3, as stated, fails: the directory [private] cannot be listed, and the
    regular file [z.txt] next to it is never sent to the workers. *)
Lemma subtree_error_keeps_siblings_counterexample :
  ~ (forall (Join : path -> string -> path) (root : path)
            (entries : list (string * FsNode)) (name : string),
        In (name, File true) entries ->
        In (Join root name) (walker Join root (Dir None entries)).1).
Proof.
  intros H.
  specialize (H backslashJoin "C:\data"%string
                [("a.txt"%string, File true);
                 ("private"%string,
                  Dir (Some ErrPermission) [("x"%string, File true)]);
                 ("z.txt"%string, File true)]
                "z.txt"%string).
  cbn in H. destruct H as [H|[]]; [|discriminate H].
  right. right. left. reflexivity.
Qed.

(** C3, amended: the first error of the traversal, on the root path or
    anywhere below it, is reported and ends the walk.  The paths sent to the
    workers are the regular files met before that error, in traversal order;
    nothing after it is visited.  Without an error every regular file of the
    tree is sent and nothing is reported. *)
Theorem walker_stops_at_first_error
    (Join : path -> string -> path) (root : path) (tree : FsNode) :
  walker Join root tree
  = (regularFiles (beforeError (preorder Join root tree)),
     match firstError (preorder Join root tree) with
     | Some (p, e) => [PrintAccessError p e; PrintScanError root e]
     | None => []
     end).
Proof.
  unfold walker, Walk. rewrite walk_walkFn.
  destruct (firstError (preorder Join root tree)) as [[q e]|]; reflexivity.
Qed.

(** ** The estimator *)

Section EstimatorFacts.

Variable flate : Flate.

Lemma len_app (a b : list Byte.byte) : len (a ++ b) = len a + len b.
Proof. unfold len. rewrite length_app. lia. Qed.

Lemma len_nonneg (a : list Byte.byte) : 0 <= len a.
Proof. unfold len. lia. Qed.

(** The copy loop writes the chunks in order and counts their bytes. *)
Lemma copyLoop_writeAll (reads : list ReadResult) :
  forall (wr : writer flate) (sink : list Byte.byte) (originalSize : Z),
  readError reads = None -> Go.in_int64 originalSize ->
  copyLoop flate reads wr sink originalSize
  = ('(wr', sink') ← writeAll flate wr (chunksRead reads) sink;
     Ok (wr', sink', Go.to_int64 (originalSize + len (bytesRead reads)))).
Proof.
  unfold bytesRead.
  induction reads as [|r reads IH]; intros wr sink osz Herr Hosz.
  - cbn. rewrite Z.add_0_r, to_int64_id by assumption. reflexivity.
  - destruct r as [chunk|chunk|chunk e]; [| |discriminate Herr];
      cbn [copyLoop chunksRead readError] in *;
      (destruct (len chunk =? 0) eqn:E;
       [ cbn; rewrite Z.add_0_r, to_int64_id by assumption; reflexivity
       | cbn [writeAll concat];
         destruct (Write flate wr chunk) as [[wr1 out]|e]; [|reflexivity];
         cbn; unfold Go.add64;
         rewrite (IH wr1 (sink ++ out) _ Herr (to_int64_range _));
         rewrite to_int64_add_l, len_app, Z.add_assoc;
         reflexivity ]).
Qed.

(** Under the stream law, the sink depends on the bytes only. *)
Lemma writeAll_concat (chunks : list (list Byte.byte)) :
  StreamLaw flate ->
  forall (wr : writer flate) (sink : list Byte.byte),
  writeAll flate wr chunks sink
  = ('(wr', out) ← Write flate wr (concat chunks); Ok (wr', sink ++ out)).
Proof.
  intros [Hnil Happ].
  induction chunks as [|chunk chunks IH]; intros wr sink.
  - cbn. rewrite Hnil. cbn. rewrite app_nil_r. reflexivity.
  - cbn [writeAll concat]. rewrite Happ.
    destruct (Write flate wr chunk) as [[wr1 out1]|e]; [|reflexivity].
    cbn. rewrite IH.
    destruct (Write flate wr1 (concat chunks)) as [[wr2 out2]|e];
      [|reflexivity].
    cbn. rewrite app_assoc. reflexivity.
Qed.

Lemma compressFileInMemory_sizes (w : World) (p : path)
    (reads : list ReadResult) :
  Open w p = Ok reads -> readError reads = None ->
  compressFileInMemory flate w p
  = (sink ← sinkAfterClose flate (chunksRead reads);
     Ok (Go.to_int64 (len (bytesRead reads)), len sink)).
Proof.
  intros Hopen Herr. unfold compressFileInMemory, sinkAfterClose.
  rewrite Hopen. cbn.
  destruct (NewWriter flate) as [wr|e]; [|reflexivity]. cbn.
  rewrite (copyLoop_writeAll reads wr [] 0 Herr)
    by (unfold Go.in_int64, Go.int64_min, Go.int64_max; lia).
  destruct (writeAll flate wr (chunksRead reads) []) as [[wr' sink]|e];
    [|reflexivity].
  cbn. destruct (Close flate wr') as [out|e]; reflexivity.
Qed.

End EstimatorFacts.

Lemma sinkAfterClose_concat (flate : Flate) (chunks1 chunks2 : list (list Byte.byte)) :
  StreamLaw flate -> concat chunks1 = concat chunks2 ->
  sinkAfterClose flate chunks1 = sinkAfterClose flate chunks2.
Proof.
  intros Hlaw E. unfold sinkAfterClose.
  destruct (NewWriter flate) as [wr|e]; [|reflexivity]. cbn.
  rewrite !(writeAll_concat flate _ Hlaw), E. reflexivity.
Qed.

Lemma zeroSkipFlate_stream : StreamLaw zeroSkipFlate.
Proof.
  split.
  - intros []. reflexivity.
  - intros [] a b. cbn. rewrite List.filter_app. reflexivity.
Qed.

(** C8: when the file can be opened and read to its end, the estimator
    returns as [originalSize] the number of bytes read and as
    [compressedSize] the length of the sink after the writer has been
    closed.  For a stream compressor the result depends on the bytes only:
    any other way of reading the same bytes gives the same two sizes. *)
Theorem estimator_returns_true_sizes
    (flate : Flate) (w : World) (p : path) (reads : list ReadResult)
    (sink : list Byte.byte) :
  Open w p = Ok reads ->
  readError reads = None ->
  len (bytesRead reads) < 2 ^ 63 ->
  sinkAfterClose flate (chunksRead reads) = Ok sink ->
  compressFileInMemory flate w p = Ok (len (bytesRead reads), len sink)
  /\ (StreamLaw flate ->
      forall (w' : World) (p' : path) (reads' : list ReadResult),
        Open w' p' = Ok reads' ->
        readError reads' = None ->
        bytesRead reads' = bytesRead reads ->
        compressFileInMemory flate w' p'
        = Ok (len (bytesRead reads), len sink)).
Proof.
  intros Hopen Herr Hfit Hsink.
  assert (Hid : Go.to_int64 (len (bytesRead reads)) = len (bytesRead reads)).
  { apply to_int64_id. pose proof (len_nonneg (bytesRead reads)).
    unfold Go.in_int64, Go.int64_min, Go.int64_max. lia. }
  split.
  - rewrite (compressFileInMemory_sizes flate w p reads Hopen Herr).
    rewrite Hsink. cbn. rewrite Hid. reflexivity.
  - intros Hlaw w' p' reads' Hopen' Herr' Hbytes.
    rewrite (compressFileInMemory_sizes flate w' p' reads' Hopen' Herr').
    rewrite (sinkAfterClose_concat flate (chunksRead reads')
               (chunksRead reads) Hlaw Hbytes).
    rewrite Hsink, Hbytes. cbn. rewrite Hid. reflexivity.
Qed.

Lemma estimator_returns_true_sizes_witness :
  compressFileInMemory zeroSkipFlate demoWorld "zeros"%string = Ok (100, 5)
  /\ compressFileInMemory zeroSkipFlate
       (withOpen demoWorld [ReadEOF (repeat Byte.x00 100)]) "copy"%string
     = Ok (100, 5).
Proof.
  destruct (estimator_returns_true_sizes zeroSkipFlate demoWorld
              "zeros"%string
              [ReadNil (repeat Byte.x00 60); ReadNil (repeat Byte.x00 40)]
              [Byte.x01; Byte.x00; Byte.x00; Byte.xff; Byte.xff])
    as [H1 H2].
  - reflexivity.
  - reflexivity.
  - vm_compute. reflexivity.
  - vm_compute. reflexivity.
  - split; [exact H1|].
    apply (H2 zeroSkipFlate_stream
              (withOpen demoWorld [ReadEOF (repeat Byte.x00 100)])
              "copy"%string [ReadEOF (repeat Byte.x00 100)]).
    + reflexivity.
    + reflexivity.
    + vm_compute. reflexivity.
Defined.

(** ** IEEE 754 facts used by the decision step *)

Lemma digits2_pos_log2 (p : positive) :
  Zpos (digits2_pos p) = Z.log2 (Zpos p) + 1.
Proof.
  induction p as [p IH|p IH|]; cbn [digits2_pos Z.log2]; try reflexivity.
  - rewrite Pos2Z.inj_succ, IH. destruct p; cbn; lia.
  - rewrite Pos2Z.inj_succ, IH. destruct p; cbn; lia.
Qed.

Lemma shr_1_m (r : shr_record) :
  0 <= shr_m r -> shr_m (shr_1 r) = Z.shiftr (shr_m r) 1.
Proof.
  destruct r as [m b s]. cbn [shr_m]. intros H.
  rewrite <- Z.div2_spec.
  destruct m as [|[p|p|]|p]; try reflexivity. lia.
Qed.

Lemma iter_pos_shr_1 (p : positive) :
  forall r : shr_record,
    0 <= shr_m r ->
    shr_m (SpecFloat.iter_pos shr_1 p r) = Z.shiftr (shr_m r) (Zpos p).
Proof.
  induction p as [p IH|p IH|]; intros r H; cbn [SpecFloat.iter_pos].
  - assert (H1 : 0 <= shr_m (shr_1 r))
      by (rewrite shr_1_m by assumption; apply Z.shiftr_nonneg; assumption).
    assert (H2 : 0 <= shr_m (SpecFloat.iter_pos shr_1 p (shr_1 r)))
      by (rewrite IH by assumption; apply Z.shiftr_nonneg; assumption).
    rewrite IH, IH, shr_1_m, !Z.shiftr_shiftr by (assumption || lia).
    f_equal. lia.
  - assert (H2 : 0 <= shr_m (SpecFloat.iter_pos shr_1 p r))
      by (rewrite IH by assumption; apply Z.shiftr_nonneg; assumption).
    rewrite IH, IH, !Z.shiftr_shiftr by (assumption || lia).
    f_equal. lia.
  - apply shr_1_m, H.
Qed.

Lemma shr_m_of_loc (m : Z) (l : location) :
  shr_m (shr_record_of_loc m l) = m.
Proof. destruct l as [|[]]; reflexivity. Qed.

Lemma shr_fexp_normal (m e : Z) (l : location) :
  0 < m -> 52 <= Z.log2 m -> -1022 <= Z.log2 m + e ->
  shr_m (fst (shr_fexp Go.prec Go.emax m e l)) = Z.shiftr m (Z.log2 m - 52)
  /\ snd (shr_fexp Go.prec Go.emax m e l) = e + (Z.log2 m - 52).
Proof.
  intros Hm Hlog He. unfold shr_fexp, shr.
  assert (Hd : Zdigits2 m = Z.log2 m + 1).
  { destruct m as [|p|p]; try lia. apply digits2_pos_log2. }
  assert (Hn : fexp Go.prec Go.emax (Zdigits2 m + e) - e = Z.log2 m - 52).
  { rewrite Hd. unfold fexp, emin, Go.prec, Go.emax. lia. }
  rewrite Hn.
  destruct (Z.log2 m - 52) as [|n|n] eqn:E; cbn [fst snd].
  - rewrite shr_m_of_loc, Z.shiftr_0_r. split; [reflexivity|lia].
  - rewrite iter_pos_shr_1 by (rewrite shr_m_of_loc; lia).
    rewrite shr_m_of_loc. split; reflexivity.
  - lia.
Qed.

Lemma round_nearest_even_bounds (m : Z) (l : location) :
  m <= round_nearest_even m l <= m + 1.
Proof.
  unfold round_nearest_even. destruct l as [|[]]; try lia.
  destruct (Z.even m); lia.
Qed.

Lemma log2_shiftr_52 (m : Z) :
  0 < m -> 52 <= Z.log2 m ->
  Z.log2 (Z.shiftr m (Z.log2 m - 52)) = 52.
Proof.
  intros Hm Hlog. rewrite Z.log2_shiftr by lia. lia.
Qed.

Lemma log2_52_bounds (m : Z) : Z.log2 m = 52 -> 2 ^ 52 <= m < 2 ^ 53.
Proof.
  intros H. assert (0 < m).
  { destruct (Z_lt_le_dec 0 m) as [?|Hle]; [assumption|].
    rewrite (Z.log2_nonpos m Hle) in H. lia. }
  pose proof (Z.log2_spec m ltac:(lia)) as S. rewrite H in S.
  change (Z.succ 52) with 53 in S. exact S.
Qed.

(** Rounding a positive mantissa of 53 to 64 bits with a small exponent
    gives a finite, non-zero number of the same sign. *)
Lemma binary_round_aux_finite (sx : bool) (m e : Z) (l : location) :
  0 < m -> 52 <= Z.log2 m <= 64 -> -64 <= e <= 64 ->
  exists m' e', binary_round_aux Go.prec Go.emax sx m e l = S754_finite sx m' e'.
Proof.
  intros Hm Hlog He. unfold binary_round_aux.
  destruct (shr_fexp_normal m e l Hm ltac:(lia) ltac:(lia)) as [Hm1 He1].
  destruct (shr_fexp Go.prec Go.emax m e l) as [mrs1 e1]. cbn [fst snd] in Hm1, He1.
  pose proof (log2_52_bounds _ (log2_shiftr_52 m Hm ltac:(lia))) as B1.
  rewrite <- Hm1 in B1.
  pose proof (round_nearest_even_bounds (shr_m mrs1) (loc_of_shr_record mrs1))
    as B2.
  set (m2 := round_nearest_even (shr_m mrs1) (loc_of_shr_record mrs1)) in *.
  assert (Hm2 : 0 < m2) by lia.
  assert (Hlog2 : 52 <= Z.log2 m2 <= 53).
  { split.
    - change 52 with (Z.log2 (2 ^ 52)). apply Z.log2_le_mono. lia.
    - change 53 with (Z.log2 (2 ^ 53)). apply Z.log2_le_mono. lia. }
  destruct (shr_fexp_normal m2 e1 loc_Exact Hm2 ltac:(lia) ltac:(lia))
    as [Hm3 He3].
  destruct (shr_fexp Go.prec Go.emax m2 e1 loc_Exact) as [mrs3 e3].
  cbn [fst snd] in Hm3, He3.
  pose proof (log2_52_bounds _ (log2_shiftr_52 m2 Hm2 ltac:(lia))) as B3.
  rewrite <- Hm3 in B3.
  destruct (shr_m mrs3) as [|m3|m3]; try lia.
  assert (E : (e3 <=? Go.emax - Go.prec) = true)
    by (apply Z.leb_le; unfold Go.emax, Go.prec; lia).
  rewrite E. eauto.
Qed.

Lemma shr_fexp_nonneg (m e : Z) (l : location) :
  0 <= m -> 0 <= shr_m (fst (shr_fexp Go.prec Go.emax m e l)).
Proof.
  intros Hm. unfold shr_fexp, shr.
  destruct (fexp Go.prec Go.emax (Zdigits2 m + e) - e) as [|n|n]; cbn [fst];
    rewrite ?iter_pos_shr_1, ?shr_m_of_loc by (rewrite shr_m_of_loc; lia);
    try lia.
  apply Z.shiftr_nonneg. lia.
Qed.

(** Rounding a non-negative mantissa never gives NaN. *)
Lemma binary_round_aux_not_nan (sx : bool) (m e : Z) (l : location) :
  0 <= m -> Go.is_nan (binary_round_aux Go.prec Go.emax sx m e l) = false.
Proof.
  intros Hm. unfold binary_round_aux.
  pose proof (shr_fexp_nonneg m e l Hm) as H1.
  destruct (shr_fexp Go.prec Go.emax m e l) as [mrs1 e1]. cbn [fst] in H1.
  pose proof (round_nearest_even_bounds (shr_m mrs1) (loc_of_shr_record mrs1))
    as B2.
  set (m2 := round_nearest_even (shr_m mrs1) (loc_of_shr_record mrs1)) in *.
  pose proof (shr_fexp_nonneg m2 e1 loc_Exact ltac:(lia)) as H3.
  destruct (shr_fexp Go.prec Go.emax m2 e1 loc_Exact) as [mrs3 e3]. cbn [fst] in H3.
  destruct (shr_m mrs3) as [|m3|m3]; try lia; try reflexivity.
  destruct (e3 <=? Go.emax - Go.prec); reflexivity.
Qed.

Lemma iter_xO_pow2 (p d : positive) :
  Zpos (Pos.iter xO p d) = Zpos p * 2 ^ Zpos d.
Proof.
  induction d as [|d IH] using Pos.peano_ind.
  - cbn. lia.
  - rewrite Pos.iter_succ, Pos2Z.inj_xO, IH, Pos2Z.inj_succ, Z.pow_succ_r by lia.
    lia.
Qed.

Lemma binary_round_int_finite (sx : bool) (p : positive) :
  Zpos p <= 2 ^ 63 ->
  exists m e, binary_round Go.prec Go.emax sx p 0 = S754_finite sx m e.
Proof.
  intros Hp. unfold binary_round, shl_align.
  assert (HL : 0 <= Z.log2 (Zpos p) <= 63).
  { split; [apply Z.log2_nonneg|].
    change 63 with (Z.log2 (2 ^ 63)). apply Z.log2_le_mono, Hp. }
  assert (Hf : fexp Go.prec Go.emax (Zpos (digits2_pos p) + 0) - 0
               = Z.log2 (Zpos p) - 52).
  { rewrite digits2_pos_log2. unfold fexp, emin, Go.prec, Go.emax. lia. }
  rewrite Hf.
  assert (Hf' : fexp Go.prec Go.emax (Zpos (digits2_pos p) + 0)
                = Z.log2 (Zpos p) - 52) by lia.
  destruct (Z.log2 (Zpos p) - 52) as [|n|d] eqn:E.
  - apply binary_round_aux_finite; lia.
  - apply binary_round_aux_finite; lia.
  - rewrite Hf'. apply binary_round_aux_finite.
    + lia.
    + rewrite iter_xO_pow2, Z.log2_mul_pow2 by lia. lia.
    + lia.
Qed.

Lemma float64_of_int_finite (x : Z) :
  x <> 0 -> - 2 ^ 63 <= x <= 2 ^ 63 - 1 ->
  exists m e, Go.float64_of_int x = S754_finite (x <? 0) m e.
Proof.
  intros Hx Hr. unfold Go.float64_of_int, binary_normalize.
  destruct x as [|p|p]; [contradiction| |].
  - apply binary_round_int_finite. lia.
  - apply binary_round_int_finite. lia.
Qed.

Lemma SFdiv_finite_not_nan (sx sy : bool) (mx my : positive) (ex ey : Z) :
  Go.is_nan (SFdiv Go.prec Go.emax (S754_finite sx mx ex) (S754_finite sy my ey))
  = false.
Proof.
  unfold SFdiv, SFdiv_core_binary.
  set (m' := match _ - _ - _ with
             | 0 => Zpos mx
             | Zpos _ => Z.shiftl (Zpos mx) _
             | Zneg _ => 0
             end).
  assert (Hm' : 0 <= m').
  { unfold m'. destruct (_ - _ - _); try lia. apply Z.shiftl_nonneg. lia. }
  pose proof (Z.div_pos m' (Zpos my) Hm' ltac:(lia)) as Hq.
  unfold Z.div in Hq. destruct (Z.div_eucl m' (Zpos my)) as [q r].
  apply binary_round_aux_not_nan, Hq.
Qed.

Lemma SFmul_finite_not_nan (x : spec_float) (sy : bool) (my : positive)
    (ey : Z) :
  Go.is_nan x = false ->
  Go.is_nan (SFmul Go.prec Go.emax x (S754_finite sy my ey)) = false.
Proof.
  destruct x as [sx|sx| |sx mx ex]; intros H; try reflexivity;
    [discriminate|].
  unfold SFmul. apply binary_round_aux_not_nan. lia.
Qed.

Lemma SFcompare_antisym (x y : spec_float) :
  SFcompare y x = option_map CompOpp (SFcompare x y).
Proof.
  destruct x as [sx|sx| |sx mx ex], y as [sy|sy| |sy my ey]; cbn;
    try reflexivity;
    try (destruct sx; reflexivity); try (destruct sy; reflexivity);
    try (destruct sx, sy; reflexivity).
  destruct sx, sy; try reflexivity;
    rewrite (Z.compare_antisym ex ey);
    destruct (ex ?= ey); cbn; try reflexivity;
    change (Pos.compare_cont Eq my mx) with (Pos.compare my mx);
    change (Pos.compare_cont Eq mx my) with (Pos.compare mx my);
    rewrite (Pos.compare_antisym mx my), ?CompOpp_involutive; reflexivity.
Qed.

(** ** The decision step *)

Lemma threshold_finite :
  exists m e,
    Go.float64_of_int COMPRESSION_EFFICIENCY_THRESHOLD = S754_finite false m e.
Proof. apply (float64_of_int_finite 10); lia. Qed.

Lemma spaceSaved_range (originalSize compressedSize : Z) :
  - 2 ^ 63 <= spaceSaved originalSize compressedSize <= 2 ^ 63 - 1.
Proof. apply to_int64_range. Qed.

(** With a non-zero [originalSize] the ratio is a number. *)
Lemma savingRatio_not_nan (originalSize compressedSize : Z) :
  originalSize <> 0 -> Go.in_int64 originalSize ->
  Go.is_nan (savingRatio originalSize compressedSize) = false.
Proof.
  intros Hne Hr. unfold savingRatio, Go.fmul, Go.fdiv.
  destruct (float64_of_int_finite 100 ltac:(lia) ltac:(lia)) as (mh & eh & ->).
  apply SFmul_finite_not_nan.
  destruct (float64_of_int_finite originalSize Hne Hr) as (my & ey & ->).
  destruct (Z.eq_dec (spaceSaved originalSize compressedSize) 0) as [E|NE].
  - rewrite E. reflexivity.
  - destruct (float64_of_int_finite _ NE
                (spaceSaved_range originalSize compressedSize))
      as (mx & ex & ->).
    apply SFdiv_finite_not_nan.
Qed.

(** On numbers, "not less than" is "greater or equal". *)
Lemma flt_false_fle (x y : Go.float64) :
  Go.is_nan x = false -> Go.is_nan y = false ->
  Go.flt x y = negb (Go.fle y x).
Proof.
  intros Hx Hy. unfold Go.flt, Go.fle, SFltb, SFleb.
  rewrite (SFcompare_antisym x y).
  destruct x as [sx|sx| |sx mx ex], y as [sy|sy| |sy my ey];
    try discriminate; cbn [SFcompare option_map];
    try (destruct sx; reflexivity); try (destruct sy; reflexivity);
    try (destruct sx, sy; reflexivity); try reflexivity.
  destruct sx, sy; try reflexivity;
    destruct (ex ?= ey); try reflexivity;
    destruct (Pos.compare_cont Eq mx my); reflexivity.
Qed.

(** The control call issued by the decision step is the one of [decide]. *)
Lemma decisionStep_call (w : World) (p : path)
    (originalSize compressedSize : Z) (st : Stats) :
  exists line rest,
    (decisionStep w p originalSize compressedSize st).2
    = line
      :: CallSetCompression p
           match decide originalSize compressedSize with
           | Enable => COMPRESSION_FORMAT_DEFAULT
           | Disable => COMPRESSION_FORMAT_NONE
           end
      :: rest.
Proof.
  unfold decisionStep, decide.
  destruct (notWorthIt originalSize compressedSize).
  - destruct (disableCompression w p); cbn; eauto.
  - destruct (enableCompression w p); cbn; eauto.
Qed.

(** ** Signs in the decision step *)

Lemma binary_round_aux_sign (sx : bool) (m e : Z) (l : location) :
  0 <= m -> signedAs sx (binary_round_aux Go.prec Go.emax sx m e l).
Proof.
  intros Hm. unfold binary_round_aux.
  pose proof (shr_fexp_nonneg m e l Hm) as H1.
  destruct (shr_fexp Go.prec Go.emax m e l) as [mrs1 e1]. cbn [fst] in H1.
  pose proof (round_nearest_even_bounds (shr_m mrs1) (loc_of_shr_record mrs1))
    as B2.
  set (m2 := round_nearest_even (shr_m mrs1) (loc_of_shr_record mrs1)) in *.
  pose proof (shr_fexp_nonneg m2 e1 loc_Exact ltac:(lia)) as H3.
  destruct (shr_fexp Go.prec Go.emax m2 e1 loc_Exact) as [mrs3 e3].
  cbn [fst] in H3.
  destruct (shr_m mrs3) as [|m3|m3]; try lia; try reflexivity.
  destruct (e3 <=? Go.emax - Go.prec); reflexivity.
Qed.

Lemma signedAs_true_nonPositive (x : Go.float64) :
  signedAs true x -> nonPositive x.
Proof. destruct x; cbn; auto. Qed.

Lemma SFdiv_finite_sign (sx sy : bool) (mx my : positive) (ex ey : Z) :
  signedAs (xorb sx sy)
    (SFdiv Go.prec Go.emax (S754_finite sx mx ex) (S754_finite sy my ey)).
Proof.
  unfold SFdiv, SFdiv_core_binary.
  set (m' := match _ - _ - _ with
             | 0 => Zpos mx
             | Zpos _ => Z.shiftl (Zpos mx) _
             | Zneg _ => 0
             end).
  assert (Hm' : 0 <= m').
  { unfold m'. destruct (_ - _ - _); try lia. apply Z.shiftl_nonneg. lia. }
  pose proof (Z.div_pos m' (Zpos my) Hm' ltac:(lia)) as Hq.
  unfold Z.div in Hq. destruct (Z.div_eucl m' (Zpos my)) as [q r].
  apply binary_round_aux_sign, Hq.
Qed.

Lemma fdiv_nonPositive (x : Go.float64) (my : positive) (ey : Z) :
  nonPositive x -> nonPositive (Go.fdiv x (S754_finite false my ey)).
Proof.
  destruct x as [s|s| |s mx ex]; cbn [nonPositive]; intros H;
    try contradiction.
  - exact I.
  - subst s. reflexivity.
  - subst s. apply signedAs_true_nonPositive.
    apply (SFdiv_finite_sign true false).
Qed.

Lemma fmul_nonPositive (x : Go.float64) (my : positive) (ey : Z) :
  nonPositive x -> nonPositive (Go.fmul x (S754_finite false my ey)).
Proof.
  destruct x as [s|s| |s mx ex]; cbn [nonPositive]; intros H;
    try contradiction.
  - exact I.
  - subst s. reflexivity.
  - subst s. apply signedAs_true_nonPositive.
    unfold Go.fmul, SFmul. apply (binary_round_aux_sign (xorb true false)).
    lia.
Qed.

Lemma nonPositive_lt_positive (x : Go.float64) (my : positive) (ey : Z) :
  nonPositive x -> Go.flt x (S754_finite false my ey) = true.
Proof.
  destruct x as [s|s| |s mx ex]; cbn [nonPositive]; intros H;
    try contradiction; try subst s; reflexivity.
Qed.

Lemma float64_of_int_nonPositive (x : Z) :
  - 2 ^ 63 <= x <= 0 -> nonPositive (Go.float64_of_int x).
Proof.
  intros Hx. destruct (Z.eq_dec x 0) as [->|Hne]; [exact I|].
  destruct (float64_of_int_finite x Hne ltac:(lia)) as (m & e & ->).
  cbn. apply Z.ltb_lt. lia.
Qed.

(** A saving that is not positive is never worth it. *)
Lemma notWorthIt_without_saving (originalSize compressedSize : Z) :
  0 < originalSize <= Go.int64_max ->
  spaceSaved originalSize compressedSize <= 0 ->
  notWorthIt originalSize compressedSize = true.
Proof.
  intros Ho Hs. unfold notWorthIt, savingRatio.
  destruct threshold_finite as (mt & et & ->).
  destruct (float64_of_int_finite 100 ltac:(lia) ltac:(lia)) as (mh & eh & ->).
  destruct (float64_of_int_finite originalSize ltac:(lia)
              ltac:(unfold Go.int64_max in Ho; lia)) as (mo & eo & ->).
  replace (originalSize <? 0) with false by (symmetry; apply Z.ltb_ge; lia).
  replace (100 <? 0) with false by reflexivity.
  apply nonPositive_lt_positive, fmul_nonPositive, fdiv_nonPositive.
  apply float64_of_int_nonPositive.
  pose proof (spaceSaved_range originalSize compressedSize). lia.
Qed.

(** The rounded result of [binary_round_aux] in the normal range. *)
Lemma binary_round_aux_normal (sx : bool) (m e : Z) (l : location) :
  0 < m -> 52 <= Z.log2 m <= 200 -> -300 <= e <= 300 ->
  exists m3 e3 m2,
    binary_round_aux Go.prec Go.emax sx m e l = S754_finite sx m3 e3
    /\ Z.log2 (Zpos m3) = 52
    /\ Z.shiftr m (Z.log2 m - 52) <= m2 <= Z.shiftr m (Z.log2 m - 52) + 1
    /\ ((Zpos m3 = m2 /\ e3 = e + (Z.log2 m - 52))
        \/ (Zpos m3 = 2 ^ 52 /\ m2 = 2 ^ 53
            /\ e3 = e + (Z.log2 m - 52) + 1)).
Proof.
  intros Hm Hlog He. unfold binary_round_aux.
  destruct (shr_fexp_normal m e l Hm ltac:(lia) ltac:(lia)) as [Hm1 He1].
  destruct (shr_fexp Go.prec Go.emax m e l) as [mrs1 e1].
  cbn [fst snd] in Hm1, He1.
  pose proof (log2_shiftr_52 m Hm ltac:(lia)) as L1.
  pose proof (log2_52_bounds _ L1) as B1.
  rewrite <- Hm1 in B1, L1.
  pose proof (round_nearest_even_bounds (shr_m mrs1) (loc_of_shr_record mrs1))
    as B2.
  set (m2 := round_nearest_even (shr_m mrs1) (loc_of_shr_record mrs1)) in *.
  assert (Hm2 : 0 < m2) by lia.
  assert (Hlog2 : 52 <= Z.log2 m2 <= 53).
  { split.
    - change 52 with (Z.log2 (2 ^ 52)). apply Z.log2_le_mono. lia.
    - change 53 with (Z.log2 (2 ^ 53)). apply Z.log2_le_mono. lia. }
  destruct (shr_fexp_normal m2 e1 loc_Exact Hm2 ltac:(lia) ltac:(lia))
    as [Hm3 He3].
  destruct (shr_fexp Go.prec Go.emax m2 e1 loc_Exact) as [mrs3 e3].
  cbn [fst snd] in Hm3, He3.
  pose proof (log2_shiftr_52 m2 Hm2 ltac:(lia)) as L3.
  pose proof (log2_52_bounds _ L3) as B3.
  rewrite <- Hm3 in B3, L3.
  destruct (shr_m mrs3) as [|m3|m3] eqn:E3; try lia.
  assert (E : (e3 <=? Go.emax - Go.prec) = true)
    by (apply Z.leb_le; unfold Go.emax, Go.prec; lia).
  rewrite E. exists m3, e3, m2.
  split; [reflexivity|]. split; [exact L3|].
  split; [rewrite <- Hm1; exact B2|].
  destruct (Z.eq_dec (Z.log2 m2) 52) as [E52|N52].
  - left. rewrite E52, Z.sub_diag in Hm3, He3. rewrite Z.shiftr_0_r in Hm3.
    split; [exact Hm3|lia].
  - right. assert (E53 : Z.log2 m2 = 53) by lia.
    assert (H53 : m2 = 2 ^ 53).
    { pose proof (Z.log2_spec m2 Hm2) as S. rewrite E53 in S. lia. }
    rewrite E53 in Hm3, He3. rewrite H53 in Hm3.
    split; [rewrite Hm3; reflexivity|]. split; [exact H53|lia].
Qed.

(** *** Values of the rounded results

    Read as rationals, the results of the conversions, of the division and
    of the multiplication of the decision step stay within one unit in the
    last place of the exact values. *)

Section ExactRatio.

Local Open Scope Q_scope.

Lemma pow2_pos (e : Z) : 0 < 2 ^ e.
Proof. apply Qpower_0_lt. reflexivity. Qed.

Lemma pow2_plus (a b : Z) : 2 ^ (a + b) == 2 ^ a * 2 ^ b.
Proof. apply Qpower_plus. discriminate. Qed.

Lemma pow2_inject (n : Z) : (0 <= n)%Z -> inject_Z (2 ^ n) == 2 ^ n.
Proof. intros H. rewrite Zpower_Qpower by exact H. reflexivity. Qed.

Lemma V_shift (m e k : Z) : (0 <= k)%Z -> V m (e + k) == V (m * 2 ^ k) e.
Proof.
  intros Hk. unfold V. rewrite pow2_plus, inject_Z_mult, pow2_inject by exact Hk.
  ring.
Qed.

Lemma V_le (m m' e : Z) : (m <= m')%Z -> V m e <= V m' e.
Proof.
  intros H. unfold V. apply Qmult_le_compat_r.
  - rewrite <- Zle_Qle. exact H.
  - apply Qlt_le_weak, pow2_pos.
Qed.

Lemma V_lt (m m' e : Z) : (m < m')%Z -> V m e < V m' e.
Proof.
  intros H. unfold V. apply Qmult_lt_compat_r.
  - apply pow2_pos.
  - rewrite <- Zlt_Qlt. exact H.
Qed.

Lemma V_le_inv (m m' e : Z) : V m e <= V m' e -> (m <= m')%Z.
Proof.
  intros H. destruct (Z_le_gt_dec m m') as [?|Hgt]; [assumption|exfalso].
  apply (Qlt_not_le _ _ (V_lt m' m e ltac:(lia)) H).
Qed.

Lemma V_lt_inv (m m' e : Z) : V m e < V m' e -> (m < m')%Z.
Proof.
  intros H. destruct (Z_lt_ge_dec m m') as [?|Hge]; [assumption|exfalso].
  apply (Qle_not_lt _ _ (V_le m' m e ltac:(lia)) H).
Qed.

Lemma V_plus (a b e : Z) : V (a + b) e == V a e + V b e.
Proof. unfold V. rewrite inject_Z_plus. ring. Qed.

Lemma shiftr_bounds (m n : Z) :
  (0 <= n)%Z ->
  (Z.shiftr m n * 2 ^ n <= m < (Z.shiftr m n + 1) * 2 ^ n)%Z.
Proof.
  intros Hn. rewrite Z.shiftr_div_pow2 by exact Hn.
  assert (0 < 2 ^ n)%Z by (apply Z.pow_pos_nonneg; lia).
  pose proof (Z.mul_div_le m (2 ^ n) ltac:(lia)).
  pose proof (Z.mul_succ_div_gt m (2 ^ n) ltac:(lia)).
  lia.
Qed.

(** The value of the rounded result lies between the two neighbours of the
    exact value at 53 bits. *)
Lemma binary_round_aux_value (m e : Z) (l : location) :
  (0 < m)%Z -> (52 <= Z.log2 m <= 200)%Z -> (-300 <= e <= 300)%Z ->
  exists m3 e3 m2,
    binary_round_aux Go.prec Go.emax false m e l = S754_finite false m3 e3
    /\ canonical (S754_finite false m3 e3)
    /\ (e <= e3 <= e + (Z.log2 m - 52) + 1)%Z
    /\ (Z.shiftr m (Z.log2 m - 52) <= m2
        <= Z.shiftr m (Z.log2 m - 52) + 1)%Z
    /\ F2Q (S754_finite false m3 e3) == V m2 (e + (Z.log2 m - 52)).
Proof.
  intros Hm Hlog He.
  destruct (binary_round_aux_normal false m e l Hm Hlog He)
    as (m3 & e3 & m2 & Hr & Hl & Hb & Hv).
  exists m3, e3, m2. split; [exact Hr|].
  split; [exact Hl|].
  split; [destruct Hv as [[_ ->]|(_ & _ & ->)]; lia|].
  split; [exact Hb|].
  cbn [F2Q].
  destruct Hv as [[-> ->]|(-> & -> & ->)].
  - unfold V. ring.
  - unfold V. rewrite pow2_plus. change (2 ^ 1) with 2.
    assert (H : inject_Z (2 ^ 53) == inject_Z (2 ^ 52) * 2)
      by (vm_compute; reflexivity).
    rewrite H. ring.
Qed.

Lemma pow2_ge_2 (k : Z) : (1 <= k)%Z -> (2 <= 2 ^ k)%Z.
Proof.
  intros H. change 2%Z with (2 ^ 1)%Z at 1. apply Z.pow_le_mono_r; lia.
Qed.

Lemma binary_round_aux_bounds (m e : Z) (l : location) (T : Q) :
  (0 < m)%Z -> (52 <= Z.log2 m <= 200)%Z -> (-300 <= e <= 300)%Z ->
  V m e <= T -> T < V (m + 1) e ->
  exists m3 e3,
    binary_round_aux Go.prec Go.emax false m e l = S754_finite false m3 e3
    /\ canonical (S754_finite false m3 e3)
    /\ (e <= e3 <= e + (Z.log2 m - 52) + 1)%Z
    /\ F2Q (S754_finite false m3 e3) <= T * (1 + eps)
    /\ (forall M E, Z.log2 (Zpos M) = 52%Z -> V (Zpos M) E <= T ->
          V (Zpos M) E <= F2Q (S754_finite false m3 e3)).
Proof.
  intros Hm Hlog He HT1 HT2.
  destruct (binary_round_aux_value m e l Hm Hlog He)
    as (m3 & e3 & m2 & Hr & Hc & He3 & Hb & Hv).
  exists m3, e3. split; [exact Hr|]. split; [exact Hc|].
  split; [exact He3|].
  set (n := (Z.log2 m - 52)%Z) in *.
  set (m1 := Z.shiftr m n) in *.
  assert (Hn : (0 <= n)%Z) by (unfold n; lia).
  pose proof (shiftr_bounds m n Hn) as Hs. fold m1 in Hs.
  assert (B1 : (2 ^ 52 <= m1 < 2 ^ 53)%Z).
  { apply log2_52_bounds. unfold m1, n. apply log2_shiftr_52; lia. }
  assert (HA : V m1 (e + n) <= T).
  { rewrite (V_shift m1 e n Hn). eapply Qle_trans; [|exact HT1].
    apply V_le. lia. }
  assert (HU : T < V (m1 + 1) (e + n)).
  { rewrite (V_shift (m1 + 1) e n Hn). eapply Qlt_le_trans; [exact HT2|].
    apply V_le. lia. }
  split.
  - rewrite Hv.
    assert (H1 : V m2 (e + n) <= V m1 (e + n) + V 1 (e + n)).
    { rewrite <- V_plus. apply V_le. lia. }
    assert (H2 : V 1 (e + n) <= eps * V m1 (e + n)).
    { assert (E1 : V 1 (e + n) == eps * V (2 ^ 52) (e + n)).
      { unfold V, eps.
        assert (Hc1 : (1 # 4503599627370496) * inject_Z (2 ^ 52) == 1)
          by (vm_compute; reflexivity).
        rewrite Qmult_assoc, Hc1. reflexivity. }
      rewrite E1. apply Qmult_le_l; [reflexivity|]. apply V_le. lia. }
    assert (H0 : 0 <= V m1 (e + n)).
    { unfold V. apply Qmult_le_0_compat.
      - change 0 with (inject_Z 0). rewrite <- Zle_Qle. lia.
      - apply Qlt_le_weak, pow2_pos. }
    unfold eps in *. lra.
  - intros M E HM HME.
    pose proof (log2_52_bounds _ HM) as BM. rewrite Hv.
    apply (Qle_trans _ (V m1 (e + n))); [|apply (V_le m1 m2); lia].
    destruct (Z.compare_spec E (e + n)) as [Heq|Hlt|Hgt].
    + subst E. apply V_le.
      assert (Zpos M < m1 + 1)%Z
        by (apply (V_lt_inv _ _ (e + n)); eapply Qle_lt_trans; eassumption).
      lia.
    + replace (e + n)%Z with (E + (e + n - E))%Z by lia.
      rewrite (V_shift m1 E (e + n - E)) by lia. apply V_le.
      pose proof (pow2_ge_2 (e + n - E) ltac:(lia)). nia.
    + exfalso.
      assert (HME' : V (Zpos M * 2 ^ (E - (e + n))) (e + n) <= T).
      { rewrite <- V_shift by lia.
        replace (e + n + (E - (e + n)))%Z with E by lia. exact HME. }
      assert (Zpos M * 2 ^ (E - (e + n)) < m1 + 1)%Z
        by (apply (V_lt_inv _ _ (e + n)); eapply Qle_lt_trans; eassumption).
      pose proof (pow2_ge_2 (E - (e + n)) ltac:(lia)). nia.
Qed.

Lemma F2Q_finite (m : positive) (e : Z) :
  F2Q (S754_finite false m e) == V (Zpos m) e.
Proof. cbn [F2Q]. unfold V. ring. Qed.

Lemma V_mul (a e b f : Z) : V a e * V b f == V (a * b) (e + f).
Proof. unfold V. rewrite inject_Z_mult, pow2_plus. ring. Qed.

Lemma V_pos (m e : Z) : (0 < m)%Z -> 0 < V m e.
Proof.
  intros H. unfold V. apply Qmult_lt_0_compat; [|apply pow2_pos].
  change 0 with (inject_Z 0). rewrite <- Zlt_Qlt. exact H.
Qed.

Lemma V_0 (m : Z) : V m 0 == inject_Z m.
Proof. unfold V. change (2 ^ 0) with 1. ring. Qed.

(** Comparison of two positive normal numbers is comparison of values. *)
Lemma SFltb_canonical (mx my : positive) (ex ey : Z) :
  Z.log2 (Zpos mx) = 52%Z -> Z.log2 (Zpos my) = 52%Z ->
  SFltb (S754_finite false mx ex) (S754_finite false my ey) = true
  <-> V (Zpos mx) ex < V (Zpos my) ey.
Proof.
  intros Hx Hy.
  pose proof (log2_52_bounds _ Hx) as Bx.
  pose proof (log2_52_bounds _ Hy) as By.
  unfold SFltb, SFcompare.
  destruct (Z.compare_spec ex ey) as [Heq|Hlt|Hgt].
  - subst ey. change (Pos.compare_cont Eq mx my) with (Pos.compare mx my).
    destruct (Pos.compare_spec mx my) as [E|L|G].
    + subst my. split; [discriminate|].
      intros H. exfalso. exact (Qlt_irrefl _ H).
    + split; [intros _; apply V_lt; lia|reflexivity].
    + split; [discriminate|]. intros H. apply V_lt_inv in H. lia.
  - split; [intros _|reflexivity].
    replace ey with (ex + (ey - ex))%Z by lia.
    rewrite (V_shift (Zpos my) ex (ey - ex)) by lia. apply V_lt.
    pose proof (pow2_ge_2 (ey - ex) ltac:(lia)). nia.
  - split; [discriminate|]. intros H. exfalso.
    replace ex with (ey + (ex - ey))%Z in H by lia.
    rewrite (V_shift (Zpos mx) ey (ex - ey)) in H by lia.
    apply V_lt_inv in H.
    pose proof (pow2_ge_2 (ex - ey) ltac:(lia)). nia.
Qed.

Lemma shr_fexp_52 (m e : Z) (l : location) :
  Z.log2 m = 52%Z -> (-1022 <= 52 + e)%Z ->
  shr_fexp Go.prec Go.emax m e l = (shr_record_of_loc m l, e).
Proof.
  intros Hlog He. pose proof (log2_52_bounds _ Hlog) as B.
  unfold shr_fexp, shr.
  assert (Hd : Zdigits2 m = (Z.log2 m + 1)%Z).
  { destruct m as [|p|p]; try lia. apply digits2_pos_log2. }
  assert (Hn : (fexp Go.prec Go.emax (Zdigits2 m + e) - e = 0)%Z).
  { rewrite Hd. unfold fexp, emin, Go.prec, Go.emax. lia. }
  rewrite Hn. reflexivity.
Qed.

Lemma binary_round_aux_exact (sx : bool) (p : positive) (e : Z) :
  Z.log2 (Zpos p) = 52%Z -> (-1000 <= e <= 900)%Z ->
  binary_round_aux Go.prec Go.emax sx (Zpos p) e loc_Exact
  = S754_finite sx p e.
Proof.
  intros Hlog He. unfold binary_round_aux.
  rewrite shr_fexp_52 by (try exact Hlog; lia).
  cbn [shr_record_of_loc shr_m loc_of_shr_record round_nearest_even].
  rewrite shr_fexp_52 by (try exact Hlog; lia).
  cbn [shr_record_of_loc shr_m].
  assert (E : (e <=? Go.emax - Go.prec)%Z = true)
    by (apply Z.leb_le; unfold Go.emax, Go.prec; lia).
  rewrite E. reflexivity.
Qed.

(** [float64(n)] is exact below 2^53. *)
Lemma float64_of_int_exact (n : Z) :
  (0 < n < 2 ^ 53)%Z ->
  exists m e,
    Go.float64_of_int n = S754_finite false m e
    /\ Z.log2 (Zpos m) = 52%Z
    /\ (-52 <= e <= 0)%Z
    /\ Zpos m = (n * 2 ^ (- e))%Z.
Proof.
  intros Hn. destruct n as [|p|p]; try lia.
  unfold Go.float64_of_int, binary_normalize, binary_round, shl_align.
  assert (HL : (0 <= Z.log2 (Zpos p) <= 52)%Z).
  { split; [apply Z.log2_nonneg|].
    apply Z.lt_succ_r, Z.log2_lt_pow2; lia. }
  assert (Hf : (fexp Go.prec Go.emax (Zpos (digits2_pos p) + 0) - 0
               = Z.log2 (Zpos p) - 52)%Z).
  { rewrite digits2_pos_log2. unfold fexp, emin, Go.prec, Go.emax. lia. }
  rewrite Hf.
  assert (Hf' : (fexp Go.prec Go.emax (Zpos (digits2_pos p) + 0)
                = Z.log2 (Zpos p) - 52)%Z) by lia.
  destruct (Z.log2 (Zpos p) - 52)%Z as [|k|d] eqn:E.
  - exists p, 0%Z. rewrite binary_round_aux_exact by lia.
    split; [reflexivity|]. split; [lia|]. split; [lia|].
    change (2 ^ (- 0))%Z with 1%Z. lia.
  - lia.
  - rewrite Hf'.
    assert (Hlog : Z.log2 (Zpos (Pos.iter xO p d)) = 52%Z)
      by (rewrite iter_xO_pow2, Z.log2_mul_pow2 by lia; lia).
    exists (Pos.iter xO p d), (Zneg d).
    rewrite binary_round_aux_exact by (try exact Hlog; lia).
    split; [reflexivity|]. split; [exact Hlog|]. split; [lia|].
    rewrite iter_xO_pow2. reflexivity.
Qed.

Lemma float64_of_int_value (n : Z) :
  (0 < n < 2 ^ 53)%Z ->
  exists m e,
    Go.float64_of_int n = S754_finite false m e
    /\ Z.log2 (Zpos m) = 52%Z
    /\ (-52 <= e <= 0)%Z
    /\ Zpos m = (n * 2 ^ (- e))%Z
    /\ V (Zpos m) e == inject_Z n.
Proof.
  intros Hn. destruct (float64_of_int_exact n Hn) as (m & e & H1 & H2 & H3 & H4).
  exists m, e. repeat (split; [assumption|]).
  rewrite H4, <- (V_shift n e (- e)) by lia.
  replace (e + - e)%Z with 0%Z by lia. apply V_0.
Qed.

Lemma div_eucl_div_mod (a b : Z) : Z.div_eucl a b = ((a / b)%Z, (a mod b)%Z).
Proof. unfold Z.div, Z.modulo. destruct (Z.div_eucl a b). reflexivity. Qed.

(** The quotient digit string and the location handed to the rounding by
    [SFdiv] for two positive normal numbers. *)
Lemma SFdiv_core_canonical (mx my : positive) (ex ey : Z) :
  Z.log2 (Zpos mx) = 52%Z -> Z.log2 (Zpos my) = 52%Z ->
  (-60 <= ex <= 60)%Z -> (-60 <= ey <= 60)%Z ->
  SFdiv_core_binary Go.prec Go.emax (Zpos mx) ex (Zpos my) ey
  = ((Zpos mx * 2 ^ 53 / Zpos my)%Z, (ex - ey - 53)%Z,
     new_location (Zpos my) ((Zpos mx * 2 ^ 53) mod Zpos my)%Z).
Proof.
  intros Hx Hy Hex Hey. unfold SFdiv_core_binary.
  change (Zdigits2 (Zpos mx)) with (Zpos (digits2_pos mx)).
  change (Zdigits2 (Zpos my)) with (Zpos (digits2_pos my)).
  rewrite !digits2_pos_log2, Hx, Hy.
  assert (He : Z.min (fexp Go.prec Go.emax (52 + 1 + ex - (52 + 1 + ey)))
                 (ex - ey) = (ex - ey - 53)%Z)
    by (unfold fexp, emin, Go.prec, Go.emax; lia).
  rewrite He.
  replace (ex - ey - (ex - ey - 53))%Z with 53%Z by lia.
  cbv beta iota zeta.
  rewrite Z.shiftl_mul_pow2 by lia.
  rewrite div_eucl_div_mod. reflexivity.
Qed.

Lemma fdiv_canonical (mx my : positive) (ex ey : Z) :
  Z.log2 (Zpos mx) = 52%Z -> Z.log2 (Zpos my) = 52%Z ->
  (-60 <= ex <= 60)%Z -> (-60 <= ey <= 60)%Z ->
  Go.fdiv (S754_finite false mx ex) (S754_finite false my ey)
  = binary_round_aux Go.prec Go.emax false
      (Zpos mx * 2 ^ 53 / Zpos my)%Z (ex - ey - 53)%Z
      (new_location (Zpos my) ((Zpos mx * 2 ^ 53) mod Zpos my)%Z).
Proof.
  intros Hx Hy Hex Hey. unfold Go.fdiv, SFdiv.
  rewrite SFdiv_core_canonical by assumption. reflexivity.
Qed.

Lemma quotient_bounds (mx my : Z) :
  (2 ^ 52 <= mx < 2 ^ 53)%Z -> (2 ^ 52 <= my < 2 ^ 53)%Z ->
  let q := (mx * 2 ^ 53 / my)%Z in
  (2 ^ 52 <= q < 2 ^ 54)%Z
  /\ (q * my <= mx * 2 ^ 53 < (q + 1) * my)%Z.
Proof.
  intros Bx By q.
  pose proof (Z.mul_div_le (mx * 2 ^ 53) my ltac:(lia)) as H1.
  pose proof (Z.mul_succ_div_gt (mx * 2 ^ 53) my ltac:(lia)) as H2.
  fold q in H1, H2. split; [|lia].
  split.
  - apply Z.div_le_lower_bound; [lia|]. nia.
  - apply Z.div_lt_upper_bound; [lia|]. nia.
Qed.

(** The quotient of two positive normal numbers, rounded. *)
Lemma fdiv_bounds (mx my : positive) (ex ey : Z) :
  Z.log2 (Zpos mx) = 52%Z -> Z.log2 (Zpos my) = 52%Z ->
  (-60 <= ex <= 60)%Z -> (-60 <= ey <= 60)%Z ->
  exists m3 e3,
    Go.fdiv (S754_finite false mx ex) (S754_finite false my ey)
    = S754_finite false m3 e3
    /\ Z.log2 (Zpos m3) = 52%Z
    /\ (ex - ey - 53 <= e3 <= ex - ey - 51)%Z
    /\ V (Zpos m3) e3 <= V (Zpos mx) ex / V (Zpos my) ey * (1 + eps)
    /\ (forall M E, Z.log2 (Zpos M) = 52%Z ->
          V (Zpos M) E <= V (Zpos mx) ex / V (Zpos my) ey ->
          V (Zpos M) E <= V (Zpos m3) e3).
Proof.
  intros Hx Hy Hex Hey.
  pose proof (log2_52_bounds _ Hx) as Bx.
  pose proof (log2_52_bounds _ Hy) as By.
  destruct (quotient_bounds _ _ Bx By) as [Bq Hq].
  set (q := (Zpos mx * 2 ^ 53 / Zpos my)%Z) in *.
  assert (Lq : (52 <= Z.log2 q <= 53)%Z).
  { split.
    - apply Z.log2_le_pow2; lia.
    - apply Z.lt_succ_r, Z.log2_lt_pow2; lia. }
  assert (HY : 0 < V (Zpos my) ey) by (apply V_pos; lia).
  assert (HX : V (Zpos mx) ex == V (Zpos mx * 2 ^ 53) (ex - 53)).
  { rewrite <- V_shift by lia. replace (ex - 53 + 53)%Z with ex by lia.
    reflexivity. }
  destruct (binary_round_aux_bounds q (ex - ey - 53)
              (new_location (Zpos my) ((Zpos mx * 2 ^ 53) mod Zpos my)%Z)
              (V (Zpos mx) ex / V (Zpos my) ey))
    as (m3 & e3 & Hr & Hc & He3 & Hup & Hlow).
  - lia.
  - lia.
  - lia.
  - apply Qle_shift_div_l; [exact HY|].
    rewrite V_mul, HX.
    replace (ex - ey - 53 + ey)%Z with (ex - 53)%Z by lia.
    apply V_le. lia.
  - apply Qlt_shift_div_r; [exact HY|].
    rewrite V_mul, HX.
    replace (ex - ey - 53 + ey)%Z with (ex - 53)%Z by lia.
    apply V_lt. lia.
  - exists m3, e3. rewrite fdiv_canonical by assumption. fold q.
    split; [exact Hr|]. split; [exact Hc|]. split; [lia|].
    rewrite <- (F2Q_finite m3 e3). split; [exact Hup|].
    intros M E HM HME. apply Hlow; assumption.
Qed.

(** The product of two positive normal numbers, rounded. *)
Lemma fmul_bounds (mx my : positive) (ex ey : Z) :
  Z.log2 (Zpos mx) = 52%Z -> Z.log2 (Zpos my) = 52%Z ->
  (-140 <= ex <= 140)%Z -> (-140 <= ey <= 140)%Z ->
  exists m3 e3,
    Go.fmul (S754_finite false mx ex) (S754_finite false my ey)
    = S754_finite false m3 e3
    /\ Z.log2 (Zpos m3) = 52%Z
    /\ V (Zpos m3) e3 <= V (Zpos mx) ex * V (Zpos my) ey * (1 + eps)
    /\ (forall M E, Z.log2 (Zpos M) = 52%Z ->
          V (Zpos M) E <= V (Zpos mx) ex * V (Zpos my) ey ->
          V (Zpos M) E <= V (Zpos m3) e3).
Proof.
  intros Hx Hy Hex Hey.
  pose proof (log2_52_bounds _ Hx) as Bx.
  pose proof (log2_52_bounds _ Hy) as By.
  assert (Bp : (2 ^ 104 <= Zpos (mx * my) < 2 ^ 106)%Z).
  { rewrite Pos2Z.inj_mul.
    change (2 ^ 104)%Z with (2 ^ 52 * 2 ^ 52)%Z.
    change (2 ^ 106)%Z with (2 ^ 53 * 2 ^ 53)%Z. nia. }
  assert (Lp : (104 <= Z.log2 (Zpos (mx * my)) <= 105)%Z).
  { split.
    - apply Z.log2_le_pow2; lia.
    - apply Z.lt_succ_r, Z.log2_lt_pow2; lia. }
  destruct (binary_round_aux_bounds (Zpos (mx * my)) (ex + ey) loc_Exact
              (V (Zpos mx) ex * V (Zpos my) ey))
    as (m3 & e3 & Hr & Hc & He3 & Hup & Hlow).
  - lia.
  - lia.
  - lia.
  - rewrite V_mul, Pos2Z.inj_mul. apply Qle_refl.
  - rewrite V_mul, Pos2Z.inj_mul. apply V_lt. lia.
  - exists m3, e3. unfold Go.fmul, SFmul. cbn [xorb].
    split; [exact Hr|]. split; [exact Hc|].
    rewrite <- (F2Q_finite m3 e3). split; [exact Hup|].
    intros M E HM HME. apply Hlow; assumption.
Qed.

Lemma float64_100 :
  Go.float64_of_int 100 = S754_finite false 7036874417766400 (-46).
Proof. vm_compute. reflexivity. Qed.

Lemma float64_10 :
  Go.float64_of_int 10 = S754_finite false 5629499534213120 (-49).
Proof. vm_compute. reflexivity. Qed.

Lemma V_100 : V 7036874417766400 (-46) == 100.
Proof. vm_compute. reflexivity. Qed.

Lemma V_10 : V 5629499534213120 (-49) == 10.
Proof. vm_compute. reflexivity. Qed.

(** The nearest [float64] to one tenth lies above it. *)
Lemma V_tenth : V 7205759403792794 (-56) == 7205759403792794 # 72057594037927936.
Proof. vm_compute. reflexivity. Qed.

Lemma inject_Z_pos (n : Z) : (0 < n)%Z -> 0 < inject_Z n.
Proof. intros H. change 0 with (inject_Z 0). rewrite <- Zlt_Qlt. exact H. Qed.

(** Exact saving below one tenth: the rounded percentage is below 10. *)
Lemma ratio_below_threshold (s o : Z) :
  (0 < s)%Z -> (10 * s < o)%Z -> (o <= 2 ^ 51)%Z ->
  Go.flt (Go.fmul (Go.fdiv (Go.float64_of_int s) (Go.float64_of_int o))
                  (Go.float64_of_int 100))
         (Go.float64_of_int 10) = true.
Proof.
  intros Hs Hlt Ho.
  destruct (float64_of_int_value s ltac:(lia))
    as (ms & es & -> & Ls & Bes & _ & Vs).
  destruct (float64_of_int_value o ltac:(lia))
    as (mo & eo & -> & Lo & Beo & _ & Vo).
  destruct (fdiv_bounds ms mo es eo Ls Lo ltac:(lia) ltac:(lia))
    as (m1 & e1 & -> & L1 & Be1 & Up1 & _).
  rewrite float64_100, float64_10.
  destruct (fmul_bounds m1 7036874417766400 e1 (-46) L1 eq_refl
              ltac:(lia) ltac:(lia))
    as (m2 & e2 & -> & L2 & Up2 & _).
  unfold Go.flt. apply SFltb_canonical; [exact L2|reflexivity|].
  rewrite V_10. rewrite V_100 in Up2. rewrite Vs, Vo in Up1.
  assert (HO : 0 < inject_Z o) by (apply inject_Z_pos; lia).
  assert (HT : inject_Z s / inject_Z o <= 2251799813685247 # 22517998136852480).
  { apply Qle_shift_div_r; [exact HO|].
    assert (H : (s * 22517998136852480 <= 2251799813685247 * o)%Z) by lia.
    rewrite Zle_Qle, !inject_Z_mult in H.
    change (inject_Z 22517998136852480) with (22517998136852480 # 1) in H.
    change (inject_Z 2251799813685247) with (2251799813685247 # 1) in H.
    lra. }
  unfold eps in *.
  set (T := inject_Z s / inject_Z o) in *.
  set (r1 := V (Zpos m1) e1) in *. set (r2 := V (Zpos m2) e2) in *.
  lra.
Qed.

(** Exact saving above one tenth: the rounded percentage is at least 10. *)
Lemma ratio_above_threshold (s o : Z) :
  (0 < s)%Z -> (o < 10 * s)%Z -> (0 < o <= 2 ^ 51)%Z -> (s < 2 ^ 53)%Z ->
  Go.flt (Go.fmul (Go.fdiv (Go.float64_of_int s) (Go.float64_of_int o))
                  (Go.float64_of_int 100))
         (Go.float64_of_int 10) = false.
Proof.
  intros Hs Hlt Ho Hs53.
  destruct (float64_of_int_value s ltac:(lia))
    as (ms & es & -> & Ls & Bes & _ & Vs).
  destruct (float64_of_int_value o ltac:(lia))
    as (mo & eo & -> & Lo & Beo & _ & Vo).
  destruct (fdiv_bounds ms mo es eo Ls Lo ltac:(lia) ltac:(lia))
    as (m1 & e1 & -> & L1 & Be1 & _ & Low1).
  rewrite float64_100, float64_10.
  destruct (fmul_bounds m1 7036874417766400 e1 (-46) L1 eq_refl
              ltac:(lia) ltac:(lia))
    as (m2 & e2 & -> & L2 & _ & Low2).
  unfold Go.flt.
  destruct (SFltb _ _) eqn:E; [exfalso|reflexivity].
  apply SFltb_canonical in E; [|exact L2|reflexivity].
  assert (HO : 0 < inject_Z o) by (apply inject_Z_pos; lia).
  assert (H1 : V 7205759403792794 (-56) <= V (Zpos m1) e1).
  { apply Low1; [reflexivity|]. rewrite Vs, Vo, V_tenth.
    apply Qle_shift_div_l; [exact HO|].
    assert (H : (7205759403792794 * o <= 72057594037927936 * s)%Z) by lia.
    rewrite Zle_Qle, !inject_Z_mult in H.
    change (inject_Z 7205759403792794) with (7205759403792794 # 1) in H.
    change (inject_Z 72057594037927936) with (72057594037927936 # 1) in H.
    lra. }
  assert (H2 : V 5629499534213120 (-49) <= V (Zpos m2) e2).
  { apply Low2; [reflexivity|]. rewrite V_10, V_100.
    rewrite V_tenth in H1. lra. }
  exact (Qlt_not_le _ _ E H2).
Qed.

Lemma pow2_split (a b : Z) :
  (0 <= b <= a)%Z -> (2 ^ a = 2 ^ b * 2 ^ (a - b))%Z.
Proof.
  intros H. rewrite <- Z.pow_add_r by lia. f_equal. lia.
Qed.

(** Exact saving of one tenth: the quotient rounds to the [float64] next
    above one tenth, and the percentage to 10. *)
Lemma ratio_at_threshold (s : Z) :
  (0 < s)%Z -> (10 * s < 2 ^ 53)%Z ->
  Go.flt (Go.fmul (Go.fdiv (Go.float64_of_int s) (Go.float64_of_int (10 * s)))
                  (Go.float64_of_int 100))
         (Go.float64_of_int 10) = false.
Proof.
  intros Hs Ho.
  destruct (float64_of_int_value s ltac:(lia))
    as (ms & es & -> & Ls & Bes & Ms & _).
  destruct (float64_of_int_value (10 * s) ltac:(lia))
    as (mo & eo & -> & Lo & Beo & Mo & _).
  pose proof (log2_52_bounds _ Ls) as Bs.
  pose proof (log2_52_bounds _ Lo) as Bo.
  rewrite fdiv_canonical by (try assumption; lia).
  set (u := (s * 2 ^ (- eo))%Z).
  assert (Hu : (0 < u)%Z) by (unfold u; apply Z.mul_pos_pos; [lia|apply Z.pow_pos_nonneg; lia]).
  assert (Hmo : Zpos mo = (10 * u)%Z) by (unfold u; lia).
  assert (Hd : (es - eo = -3 \/ es - eo = -4)%Z).
  { destruct (Z_lt_le_dec (- es) (- eo)) as [Hlt|Hge].
    - exfalso. rewrite (pow2_split (- eo) (- es)) in Mo by lia.
      pose proof (pow2_ge_2 (- eo - - es) ltac:(lia)). nia.
    - rewrite (pow2_split (- es) (- eo)) in Ms by lia.
      assert (Hms : Zpos ms = (u * 2 ^ (- es - - eo))%Z) by (unfold u; lia).
      assert (C : (- es - - eo = 0 \/ - es - - eo = 1 \/ - es - - eo = 2
                   \/ - es - - eo = 3 \/ - es - - eo = 4
                   \/ 5 <= - es - - eo)%Z) by lia.
      destruct C as [C|[C|[C|[C|[C|C]]]]];
        try (rewrite C in Hms; cbn in Hms; lia).
      exfalso. assert (2 ^ 5 <= 2 ^ (- es - - eo))%Z
        by (apply Z.pow_le_mono_r; lia).
      change (2 ^ 5)%Z with 32%Z in *. nia. }
  assert (Hms : (Zpos ms = 8 * u /\ es - eo = -3
                 \/ Zpos ms = 16 * u /\ es - eo = -4)%Z).
  { rewrite (pow2_split (- es) (- eo)) in Ms by lia.
    destruct Hd as [Hd|Hd]; [left|right]; (split; [|exact Hd]).
    - replace (- es - - eo)%Z with 3%Z in Ms by lia. unfold u. lia.
    - replace (- es - - eo)%Z with 4%Z in Ms by lia. unfold u. lia. }
  rewrite Hmo.
  destruct Hms as [[-> Hd']|[-> Hd']].
  - replace (es - eo - 53)%Z with (-56)%Z by lia.
    assert (Hq : (8 * u * 2 ^ 53 / (10 * u) = 7205759403792793)%Z).
    { symmetry. apply (Z.div_unique _ _ _ (6 * u)); lia. }
    assert (Hr : ((8 * u * 2 ^ 53) mod (10 * u) = 6 * u)%Z).
    { symmetry. apply (Z.mod_unique _ _ 7205759403792793); lia. }
    rewrite Hq, Hr.
    assert (Hl : new_location (10 * u) (6 * u) = loc_Inexact Gt).
    { unfold new_location. rewrite Z.even_mul. cbn [Z.even orb].
      unfold new_location_even.
      destruct (Z.eqb_spec (6 * u) 0) as [E0|_]; [lia|].
      f_equal. apply Z.compare_gt_iff. lia. }
    rewrite Hl. vm_compute. reflexivity.
  - replace (es - eo - 53)%Z with (-57)%Z by lia.
    assert (Hq : (16 * u * 2 ^ 53 / (10 * u) = 14411518807585587)%Z).
    { symmetry. apply (Z.div_unique _ _ _ (2 * u)); lia. }
    assert (Hr : ((16 * u * 2 ^ 53) mod (10 * u) = 2 * u)%Z).
    { symmetry. apply (Z.mod_unique _ _ 14411518807585587); lia. }
    rewrite Hq, Hr.
    assert (Hl : new_location (10 * u) (2 * u) = loc_Inexact Lt).
    { unfold new_location. rewrite Z.even_mul. cbn [Z.even orb].
      unfold new_location_even.
      destruct (Z.eqb_spec (2 * u) 0) as [E0|_]; [lia|].
      f_equal. apply Z.compare_lt_iff. lia. }
    rewrite Hl. vm_compute. reflexivity.
Qed.

End ExactRatio.

Lemma spaceSaved_exact (originalSize compressedSize : Z) :
  0 < originalSize <= 2 ^ 51 -> 0 <= compressedSize <= Go.int64_max ->
  spaceSaved originalSize compressedSize = originalSize - compressedSize.
Proof.
  intros Ho Hc. unfold spaceSaved, Go.sub64. apply to_int64_id.
  unfold Go.in_int64, Go.int64_min, Go.int64_max in *. lia.
Qed.

(** Up to 2^51 bytes the test of the decision step is the test on the exact
    ratio. *)
Lemma notWorthIt_exact (originalSize compressedSize : Z) :
  0 < originalSize <= 2 ^ 51 -> 0 <= compressedSize <= Go.int64_max ->
  notWorthIt originalSize compressedSize = true
  <-> (originalSize - compressedSize) * 100
      < COMPRESSION_EFFICIENCY_THRESHOLD * originalSize.
Proof.
  intros Ho Hc. unfold COMPRESSION_EFFICIENCY_THRESHOLD.
  pose proof (spaceSaved_exact originalSize compressedSize Ho Hc) as Hs.
  destruct (Z_le_gt_dec (originalSize - compressedSize) 0) as [Hle|Hgt].
  - split; [lia|]. intros _. apply notWorthIt_without_saving.
    + unfold Go.int64_max. lia.
    + rewrite Hs. exact Hle.
  - unfold notWorthIt, savingRatio, COMPRESSION_EFFICIENCY_THRESHOLD.
    rewrite Hs.
    destruct (Z.lt_trichotomy (10 * (originalSize - compressedSize))
                originalSize) as [L|[E|G]].
    + rewrite ratio_below_threshold by lia. split; [lia|reflexivity].
    + pose proof (ratio_at_threshold (originalSize - compressedSize)
                    ltac:(lia) ltac:(lia)) as H.
      rewrite E in H. rewrite H. split; [discriminate|lia].
    + rewrite ratio_above_threshold by lia. split; [discriminate|lia].
Qed.

(** C6, as stated, fails: the ratio that is compared is the [float64] value
    of [float64(originalSize - compressedSize) / float64(originalSize) * 100],
    rounded twice.  For the sizes below, the exact saving is under 10% of the
    original size, yet the rounded ratio is 10 and the decision is Enable. *)
Lemma decide_exact_ratio_counterexample :
  ~ (forall originalSize compressedSize : Z,
       0 < originalSize ->
       (decide originalSize compressedSize = Disable
        <-> (originalSize - compressedSize) * 100
            < COMPRESSION_EFFICIENCY_THRESHOLD * originalSize)).
Proof.
  intros H.
  specialize (H 7000000000000001 6300000000000001 ltac:(lia)).
  destruct H as [_ H].
  assert (E : decide 7000000000000001 6300000000000001 = Enable)
    by (vm_compute; reflexivity).
  assert (L : (7000000000000001 - 6300000000000001) * 100
              < COMPRESSION_EFFICIENCY_THRESHOLD * 7000000000000001)
    by (unfold COMPRESSION_EFFICIENCY_THRESHOLD; lia).
  apply H in L. rewrite E in L. discriminate L.
Qed.

(** C6, amended: for [0 < originalSize <= 2^51] (2 PiB) and a compressed
    size between 0 and [MaxInt64], the decision is Disable exactly when the
    exact saving ratio [(originalSize - compressedSize) / originalSize * 100]
    is strictly less than 10, that is when
    [(originalSize - compressedSize) * 100 < 10 * originalSize], and Enable
    otherwise; the control call issued is the one of the decision.
    [decide 100 85] is Enable, [decide 100 95] and [decide 100 100] are
    Disable.  (Beyond 2^52 the two roundings of the [float64] computation
    can turn an exact ratio just under 10 into 10.) *)
Theorem decide_by_threshold
    (w : World) (p : path) (st : Stats) (originalSize compressedSize : Z) :
  0 < originalSize <= 2 ^ 51 ->
  0 <= compressedSize <= Go.int64_max ->
  (decide originalSize compressedSize = Disable
   <-> (originalSize - compressedSize) * 100
       < COMPRESSION_EFFICIENCY_THRESHOLD * originalSize)
  /\ (decide originalSize compressedSize = Enable
      <-> COMPRESSION_EFFICIENCY_THRESHOLD * originalSize
          <= (originalSize - compressedSize) * 100)
  /\ (exists line rest,
        (decisionStep w p originalSize compressedSize st).2
        = line
          :: CallSetCompression p
               match decide originalSize compressedSize with
               | Enable => COMPRESSION_FORMAT_DEFAULT
               | Disable => COMPRESSION_FORMAT_NONE
               end
          :: rest)
  /\ decide 100 85 = Enable
  /\ decide 100 95 = Disable
  /\ decide 100 100 = Disable.
Proof.
  intros Ho Hc.
  pose proof (notWorthIt_exact originalSize compressedSize Ho Hc) as Hx.
  pose proof (decisionStep_call w p originalSize compressedSize st) as Hcall.
  split; [|split; [|split; [exact Hcall|repeat split; vm_compute; reflexivity]]].
  - unfold decide. destruct (notWorthIt originalSize compressedSize).
    + split; [intros _; apply Hx; reflexivity|reflexivity].
    + split; [discriminate|]. intros H. apply Hx in H. discriminate H.
  - unfold decide. destruct (notWorthIt originalSize compressedSize).
    + split; [discriminate|]. intros H.
      assert (Hlt : (originalSize - compressedSize) * 100
                    < COMPRESSION_EFFICIENCY_THRESHOLD * originalSize)
        by (apply Hx; reflexivity).
      lia.
    + split; [|reflexivity]. intros _.
      destruct (Z_lt_le_dec ((originalSize - compressedSize) * 100)
                  (COMPRESSION_EFFICIENCY_THRESHOLD * originalSize))
        as [Hlt|Hge]; [|exact Hge].
      apply Hx in Hlt. discriminate Hlt.
Qed.

Lemma decide_by_threshold_witness :
  (0 < 1000 <= 2 ^ 51 /\ 0 <= 900 <= Go.int64_max)
  /\ decide 1000 900 = Enable
  /\ (decide 1000 901 = Disable <-> (1000 - 901) * 100
                                    < COMPRESSION_EFFICIENCY_THRESHOLD * 1000).
Proof.
  assert (H1 : 0 < 1000 <= 2 ^ 51) by lia.
  assert (H2 : 0 <= 900 <= Go.int64_max) by (unfold Go.int64_max; lia).
  assert (H3 : 0 <= 901 <= Go.int64_max) by (unfold Go.int64_max; lia).
  split; [split; assumption|]. split.
  - destruct (decide_by_threshold demoWorld "zeros"%string zeroStats
                1000 900 H1 H2) as (_ & HE & _).
    apply HE. unfold COMPRESSION_EFFICIENCY_THRESHOLD. lia.
  - destruct (decide_by_threshold demoWorld "zeros"%string zeroStats
                1000 901 H1 H3) as (HD & _).
    exact HD.
Defined.

(** C2, as stated, fails: on the sample (0, 0) the ratio is NaN and the
    branch taken is Enable, not Disable. *)
Lemma decide_zero_zero_counterexample :
  ~ (decide 0 0 = Disable /\ Go.is_nan (savingRatio 0 0) = false).
Proof. vm_compute. intros [H _]. discriminate H. Qed.

(** C2, amended: on the sample (0, 0) the decision step returns (a float
    division by zero does not panic); the ratio is NaN, [NaN < 10] is false
    and the step takes the Enable branch and issues the enabling control
    call.  On a sample (0, c) with [c > 0], the ratio is minus infinity and
    the decision is Disable. *)
Theorem decide_on_zero_originalSize (w : World) (p : path) (st : Stats) :
  savingRatio 0 0 = S754_nan
  /\ decide 0 0 = Enable
  /\ (exists rest,
        (decisionStep w p 0 0 st).2
        = PrintBeneficial p S754_nan
          :: CallSetCompression p COMPRESSION_FORMAT_DEFAULT :: rest)
  /\ (forall compressedSize,
        0 < compressedSize <= Go.int64_max ->
        savingRatio 0 compressedSize = S754_infinity true
        /\ decide 0 compressedSize = Disable).
Proof.
  split; [reflexivity|]. split; [reflexivity|]. split.
  - unfold decisionStep.
    change (notWorthIt 0 0) with false.
    change (savingRatio 0 0) with S754_nan.
    destruct (enableCompression w p); cbn; eauto.
  - intros c Hc.
    assert (E : savingRatio 0 c = S754_infinity true).
    { unfold savingRatio, Go.fmul, Go.fdiv.
      assert (Hs : spaceSaved 0 c = - c).
      { unfold spaceSaved, Go.sub64. apply to_int64_id.
        unfold Go.in_int64, Go.int64_min, Go.int64_max in *. lia. }
      rewrite Hs.
      destruct (float64_of_int_finite (- c)) as (m & e & ->);
        [lia|unfold Go.int64_max in Hc; lia|].
      replace (- c <? 0) with true by (symmetry; apply Z.ltb_lt; lia).
      reflexivity. }
    split; [exact E|].
    unfold decide, notWorthIt. rewrite E. reflexivity.
Qed.

Lemma decide_on_zero_originalSize_witness :
  savingRatio 0 5 = S754_infinity true /\ decide 0 5 = Disable.
Proof.
  destruct (decide_on_zero_originalSize demoWorld "zeros"%string zeroStats)
    as (_ & _ & _ & H).
  apply (H 5). vm_compute. split; [reflexivity|discriminate].
Defined.

(** * Further properties of the program *)

(** ** Every pool run is a sequential run *)

Section Linearization.

Variable flate : Flate.
Variable w : World.

Lemma worker_app (l1 l2 : list path) (st : Stats) :
  worker flate w (l1 ++ l2) st
  = let '(st1, ev1) := worker flate w l1 st in
    let '(st2, ev2) := worker flate w l2 st1 in
    (st2, ev1 ++ ev2).
Proof.
  revert st. induction l1 as [|p l1 IH]; intros st.
  - cbn. destruct (worker flate w l2 st). reflexivity.
  - cbn [app worker]. destruct (processFile flate w p st) as [st' ev].
    rewrite IH. destruct (worker flate w l1 st') as [st1 ev1].
    destruct (worker flate w l2 st1) as [st2 ev2].
    rewrite app_assoc. reflexivity.
Qed.

Lemma move_explained (l : list path) (st0 : Stats) (i : nat) (s : Pool)
    (done : list path) :
  explainedBy flate w l st0 s done ->
  exists done', explainedBy flate w l st0 (move flate w i s) done'.
Proof.
  intros [Hperm Hrun]. unfold move.
  destruct (workers s !! i) as [[| p |]|] eqn:Hi;
    [| |exists done; split; assumption..].
  - destruct (queue s) as [|p rest] eqn:Hq.
    + exists done. split; [|exact Hrun].
      rewrite <- Hperm. unfold pending; cbn. rewrite Hq.
      apply Permutation_app_head, Permutation_app_tail.
      apply (held_insert _ _ _ Exited Hi).
    + exists done. split; [|exact Hrun].
      rewrite <- Hperm. unfold pending; cbn. rewrite Hq.
      apply Permutation_app_head.
      pose proof (held_insert _ _ _ (Holding p) Hi) as P. cbn in P.
      rewrite P. cbn. apply Permutation_middle.
  - exists (done ++ [p]).
    destruct (processFile flate w p (stats s)) as [st ev] eqn:Hp.
    split.
    + rewrite <- Hperm. unfold pending; cbn.
      pose proof (held_insert _ _ _ Waiting Hi) as P. cbn in P.
      rewrite <- app_assoc. apply Permutation_app_head.
      cbn. rewrite <- P. reflexivity.
    + cbn. rewrite worker_app, Hrun. cbn. rewrite Hp.
      rewrite app_nil_r. reflexivity.
Qed.

Lemma exec_explained (l : list path) (st0 : Stats) (sched : list nat) :
  forall (s : Pool) (done : list path),
  explainedBy flate w l st0 s done ->
  exists done', explainedBy flate w l st0 (exec flate w sched s) done'.
Proof.
  induction sched as [|i sched IH]; intros s done H; [exists done; exact H|].
  destruct (move_explained l st0 i s done H) as [done' H'].
  cbn. apply (IH _ done' H').
Qed.

Lemma waitAll_explained (l : list path) (st0 : Stats) (s : Pool)
    (done : list path) :
  explainedBy flate w l st0 s done ->
  exists done', explainedBy flate w l st0 (waitAll flate w s) done'.
Proof.
  unfold waitAll. generalize (seq 0 (length (workers s))). intros idxs.
  revert s done. induction idxs as [|j idxs IH]; intros s done H;
    [exists done; exact H|].
  cbn [fold_left].
  unfold runToExit at 2.
  destruct (exec_explained l st0 (replicate (2 * length (queue s) + 2) j)
              s done H) as [done' H'].
  apply (IH _ done' H').
Qed.

Lemma runPool_pending (n : nat) (sched : list nat) (l : list path)
    (st0 : Stats) :
  (0 < n)%nat -> wfStats st0 ->
  pending (runPool flate w n sched l st0) = [].
Proof.
  intros Hn Hwf. unfold runPool.
  set (s0 := exec flate w sched (startPool n l st0)).
  assert (Hinv : poolInv flate w l st0 (waitAll flate w s0))
    by apply waitAll_inv, exec_inv, startPool_inv, Hwf.
  assert (Hlen : length (workers s0) = n).
  { unfold s0. rewrite exec_length. cbn. apply length_replicate. }
  destruct Hinv as (_ & _ & Hclosed).
  unfold pending.
  rewrite (Hclosed 0%nat) by (apply waitAll_exited; lia).
  rewrite held_all_exited; [reflexivity|].
  intros i Hi. rewrite waitAll_length in Hi. apply waitAll_exited, Hi.
Qed.

(** Whatever the schedule, the counters and the events of a pool run are
    those of one worker going through the files in some order. *)
Lemma runPool_sequential (n : nat) (sched : list nat) (l : list path)
    (st0 : Stats) :
  (0 < n)%nat -> wfStats st0 ->
  exists order,
    Permutation order l
    /\ worker flate w order st0
       = (stats (runPool flate w n sched l st0),
          printed (runPool flate w n sched l st0)).
Proof.
  intros Hn Hwf.
  assert (H0 : explainedBy flate w l st0 (startPool n l st0) []).
  { split; [|reflexivity]. unfold pending; cbn.
    replace (held (replicate n Waiting)) with (@nil path); [reflexivity|].
    clear. induction n as [|n IH]; [reflexivity|exact IH]. }
  destruct (exec_explained l st0 sched _ _ H0) as [d1 H1].
  destruct (waitAll_explained l st0 _ d1 H1) as [order [Hperm Hrun]].
  fold (runPool flate w n sched l st0) in Hperm, Hrun.
  rewrite (runPool_pending n sched l st0 Hn Hwf), app_nil_r in Hperm.
  exists order. split; assumption.
Qed.

End Linearization.

(** ** The control calls of a run *)

Section ControlCalls.

Variable flate : Flate.
Variable w : World.

Lemma controlCalls_app (a b : list Event) :
  controlCalls (a ++ b) = controlCalls a ++ controlCalls b.
Proof.
  induction a as [|ev a IH]; [reflexivity|].
  destruct ev; cbn; rewrite ?IH; reflexivity.
Qed.

Lemma processFile_calls (p : path) (st : Stats) :
  controlCalls (processFile flate w p st).2 = callsFor flate w p.
Proof.
  unfold processFile, decisionStep, callsFor, sample, estimated, decide.
  destruct (getFileSize w p) as [size|e]; [|reflexivity].
  destruct (size >? _); [reflexivity|]. cbn [negb].
  destruct (compressFileInMemory flate w p) as [[o c]|e]; [|reflexivity].
  destruct (notWorthIt o c).
  - destruct (disableCompression w p); reflexivity.
  - destruct (enableCompression w p); reflexivity.
Qed.

Lemma worker_calls (l : list path) (st : Stats) :
  controlCalls (worker flate w l st).2 = flat_map (callsFor flate w) l.
Proof.
  revert st. induction l as [|p l IH]; intros st; [reflexivity|].
  cbn [worker flat_map].
  pose proof (processFile_calls p st) as Hp.
  destruct (processFile flate w p st) as [st1 ev]. cbn in Hp.
  specialize (IH st1). destruct (worker flate w l st1) as [st2 evs].
  cbn in *. rewrite controlCalls_app, Hp, IH. reflexivity.
Qed.

Lemma callsFor_path (p q : path) (format : Z) :
  In (q, format) (callsFor flate w p) ->
  q = p
  /\ exists originalSize compressedSize,
       sample flate w p = Some (originalSize, compressedSize)
       /\ format = formatOf (decide originalSize compressedSize).
Proof.
  unfold callsFor. destruct (sample flate w p) as [[o c]|]; [|intros []].
  intros [E|[]]. injection E as <- <-. split; [reflexivity|]. eauto.
Qed.

Lemma callsFor_length (p : path) :
  Z.of_nat (length (callsFor flate w p)) = counted (outcome flate w p).
Proof.
  unfold callsFor, outcome. destruct (sample flate w p) as [[o c]|];
    [|reflexivity].
  cbv zeta. destruct (apply w p (decide o c)); [reflexivity|].
  destruct (decide o c); reflexivity.
Qed.

Lemma flat_map_callsFor_length (l : list path) :
  Z.of_nat (length (flat_map (callsFor flate w) l))
  = sumOver (fun p => counted (outcome flate w p)) l.
Proof.
  induction l as [|p l IH]; [reflexivity|].
  cbn [flat_map sumOver]. rewrite length_app, Nat2Z.inj_add, IH.
  rewrite callsFor_length. reflexivity.
Qed.

Lemma flat_map_callsFor_paths (l : list path) (q : path) :
  In q (map fst (flat_map (callsFor flate w) l)) -> In q l.
Proof.
  induction l as [|p l IH]; [intros []|].
  cbn [flat_map]. rewrite map_app, in_app_iff. intros [H|H].
  - left. apply in_map_iff in H. destruct H as [[q' f] [<- H]].
    destruct (callsFor_path p q' f H) as [-> _]. reflexivity.
  - right. apply IH, H.
Qed.

Lemma flat_map_callsFor_NoDup (l : list path) :
  List.NoDup l -> List.NoDup (map fst (flat_map (callsFor flate w) l)).
Proof.
  induction 1 as [|p l Hp Hl IH]; [constructor|].
  cbn [flat_map]. rewrite map_app.
  unfold callsFor at 1. destruct (sample flate w p) as [[o c]|].
  - cbn. constructor; [|exact IH].
    intros Hin. apply Hp, flat_map_callsFor_paths, Hin.
  - exact IH.
Qed.

Lemma criticalEvents_app (a b : list Event) :
  criticalEvents (a ++ b) = criticalEvents a ++ criticalEvents b.
Proof. apply List.filter_app. Qed.

End ControlCalls.

(** X1: whatever the pool size and the schedule, a run ends with the
    counters of one worker going through the same files in some order, and
    the events produced inside the critical sections (the progress lines and
    the control calls) are those of that sequential run, in its order: two
    files are never interleaved inside the lock and none is lost or
    repeated. *)
Theorem pool_run_is_sequential
    (flate : Flate) (w : World) (n : nat) (sched : list nat) (l : list path) :
  (0 < n)%nat ->
  let s := runPool flate w n sched l zeroStats in
  exists order,
    Permutation order l
    /\ stats s = (worker flate w order zeroStats).1
    /\ criticalEvents (printed s)
       = criticalEvents (worker flate w order zeroStats).2.
Proof.
  intros Hn s.
  destruct (runPool_sequential flate w n sched l zeroStats Hn wfStats_zero)
    as (order & Hperm & Hrun).
  exists order. fold s in Hrun. rewrite Hrun. auto.
Qed.

Lemma pool_run_is_sequential_witness :
  let s := runPool zeroSkipFlate demoWorld 2 [1; 0; 1]%nat
             ["zeros"; "noise"]%string zeroStats in
  exists order,
    Permutation order ["zeros"; "noise"]%string
    /\ stats s = (worker zeroSkipFlate demoWorld order zeroStats).1
    /\ criticalEvents (printed s)
       = criticalEvents (worker zeroSkipFlate demoWorld order zeroStats).2.
Proof.
  apply (pool_run_is_sequential zeroSkipFlate demoWorld 2 [1; 0; 1]%nat
           ["zeros"; "noise"]%string).
  lia.
Defined.

(** X2: the control calls of a run are one call for each file that reached
    the decision, with the format of that file's decision, and nothing
    else: every call is on a file handed to the pool, and when the files are
    distinct no file is called twice. *)
Theorem control_calls_one_per_decided_file
    (flate : Flate) (w : World) (n : nat) (sched : list nat) (l : list path) :
  (0 < n)%nat ->
  let calls := controlCalls (printed (runPool flate w n sched l zeroStats)) in
  (exists order,
     Permutation order l /\ calls = flat_map (callsFor flate w) order)
  /\ (forall p format,
        In (p, format) calls ->
        In p l
        /\ exists originalSize compressedSize,
             sample flate w p = Some (originalSize, compressedSize)
             /\ format = formatOf (decide originalSize compressedSize))
  /\ (List.NoDup l -> List.NoDup (map fst calls)).
Proof.
  intros Hn calls.
  destruct (runPool_sequential flate w n sched l zeroStats Hn wfStats_zero)
    as (order & Hperm & Hrun).
  assert (E : calls = flat_map (callsFor flate w) order).
  { unfold calls. rewrite <- (worker_calls flate w order zeroStats), Hrun.
    reflexivity. }
  split; [exists order; split; assumption|]. split.
  - intros p format Hin. rewrite E in Hin.
    apply in_flat_map in Hin. destruct Hin as (q & Hq & Hin).
    destruct (callsFor_path flate w q p format Hin) as [-> Hs].
    split; [|exact Hs]. apply (Permutation_in _ Hperm), Hq.
  - intros Hnd. rewrite E. apply flat_map_callsFor_NoDup.
    apply (Permutation_NoDup (Permutation_sym Hperm)), Hnd.
Qed.

Lemma control_calls_one_per_decided_file_witness :
  controlCalls
    (printed (runPool zeroSkipFlate demoWorld 1 [] demoPaths zeroStats))
  = [("zeros"%string, 1); ("noise"%string, 0); ("locked"%string, 1)]
  /\ List.NoDup
       (map fst
          (controlCalls
             (printed
                (runPool zeroSkipFlate demoWorld 1 [] demoPaths zeroStats)))).
Proof.
  destruct (control_calls_one_per_decided_file zeroSkipFlate demoWorld 1 []
              demoPaths) as (_ & _ & H); [lia|].
  split; [vm_compute; reflexivity|].
  apply H. unfold demoPaths.
  repeat (constructor; [cbn; intros Hin;
                        repeat (destruct Hin as [Hin|Hin];
                                [discriminate Hin|]); exact Hin|]).
  constructor.
Defined.

(** X3: with fewer than 2^63 files, the final [totalFilesProcessed] is the
    number of control calls issued during the run. *)
Theorem processed_counts_control_calls
    (flate : Flate) (w : World) (n : nat) (sched : list nat) (l : list path) :
  (0 < n)%nat -> Z.of_nat (length l) < 2 ^ 63 ->
  let s := runPool flate w n sched l zeroStats in
  totalFilesProcessed (stats s)
  = Z.of_nat (length (controlCalls (printed s))).
Proof.
  intros Hn Hlen s.
  destruct (runPool_sequential flate w n sched l zeroStats Hn wfStats_zero)
    as (order & Hperm & Hrun).
  fold s in Hrun.
  replace (printed s) with (worker flate w order zeroStats).2
    by (rewrite Hrun; reflexivity).
  rewrite worker_calls, flat_map_callsFor_length.
  rewrite (sumOver_perm _ order l Hperm).
  unfold s. rewrite (runPool_stats flate w n sched l zeroStats Hn wfStats_zero).
  destruct (tally_exact flate w l Hlen) as (-> & _). reflexivity.
Qed.

Lemma processed_counts_control_calls_witness :
  let s := runPool zeroSkipFlate demoWorld 3 [2; 0; 1; 1]%nat demoPaths
             zeroStats in
  totalFilesProcessed (stats s)
  = Z.of_nat (length (controlCalls (printed s))).
Proof.
  apply (processed_counts_control_calls zeroSkipFlate demoWorld 3
           [2; 0; 1; 1]%nat demoPaths).
  - lia.
  - vm_compute. reflexivity.
Defined.

(** ** What the walker sends *)










(** X7: compression is enabled only for a file whose estimate is strictly
    smaller than the file: if the decision on a non-empty file is Enable,
    then [compressedSize < originalSize]. *)
Theorem enable_only_when_smaller (originalSize compressedSize : Z) :
  0 < originalSize <= Go.int64_max ->
  0 <= compressedSize <= Go.int64_max ->
  decide originalSize compressedSize = Enable ->
  compressedSize < originalSize.
Proof.
  intros Ho Hc Hd.
  destruct (Z_lt_le_dec compressedSize originalSize) as [Hlt|Hge];
    [exact Hlt|exfalso].
  unfold decide in Hd.
  rewrite notWorthIt_without_saving in Hd; [discriminate Hd|exact Ho|].
  unfold spaceSaved, Go.sub64. rewrite to_int64_id; [lia|].
  unfold Go.in_int64, Go.int64_min, Go.int64_max in *. lia.
Qed.

Lemma enable_only_when_smaller_witness :
  decide 100 85 = Enable /\ 85 < 100.
Proof.
  split; [vm_compute; reflexivity|].
  apply (enable_only_when_smaller 100 85).
  - vm_compute. split; [reflexivity|discriminate].
  - vm_compute. split; discriminate.
  - vm_compute. reflexivity.
Defined.

(** With nothing to compress and a non-empty closed stream the ratio is
    minus infinity, which is below the threshold. *)
Lemma notWorthIt_zero_original (compressedSize : Z) :
  0 < compressedSize <= Go.int64_max -> notWorthIt 0 compressedSize = true.
Proof.
  intros Hc. unfold notWorthIt, savingRatio, Go.fmul, Go.fdiv.
  assert (Hs : spaceSaved 0 compressedSize = - compressedSize).
  { unfold spaceSaved, Go.sub64. apply to_int64_id.
    unfold Go.in_int64, Go.int64_min, Go.int64_max in *. lia. }
  rewrite Hs.
  destruct (float64_of_int_finite (- compressedSize)) as (m & e & ->);
    [lia|unfold Go.int64_max in Hc; lia|].
  replace (- compressedSize <? 0) with true by (symmetry; apply Z.ltb_lt; lia).
  reflexivity.
Qed.

(** ** Edge cases of the estimator and of [processFile] *)

Section EdgeCases.

Variable flate : Flate.

(** A read error ends the copy loop with that error, once the chunks read
    before it have been written. *)
Lemma copyLoop_readError (reads : list ReadResult) (e : error) :
  forall (wr : writer flate) (sink : list Byte.byte) (originalSize : Z),
  readError reads = Some e ->
  copyLoop flate reads wr sink originalSize
  = ('(_, _) ← writeAll flate wr (chunksRead reads) sink; Err e).
Proof.
  induction reads as [|r reads IH]; intros wr sink osz Herr; [discriminate|].
  destruct r as [chunk|chunk|chunk e'];
    cbn [copyLoop chunksRead readError] in *.
  - destruct (len chunk =? 0); [discriminate|].
    cbn [writeAll]. destruct (Write flate wr chunk) as [[wr1 out]|e1];
      [|reflexivity].
    cbn. apply IH, Herr.
  - destruct (len chunk =? 0); [discriminate|].
    cbn [writeAll]. destruct (Write flate wr chunk) as [[wr1 out]|e1];
      [|reflexivity].
    cbn. apply IH, Herr.
  - injection Herr as ->. reflexivity.
Qed.

(** A read that returns no byte ends the loop, whatever its error value and
    whatever would follow. *)
Lemma copyLoop_zero_read (pre post : list ReadResult) :
  forall (wr : writer flate) (sink : list Byte.byte) (originalSize : Z),
  copyLoop flate (pre ++ ReadNil [] :: post) wr sink originalSize
  = copyLoop flate pre wr sink originalSize.
Proof.
  induction pre as [|r pre IH]; intros wr sink osz; [reflexivity|].
  destruct r as [chunk|chunk|chunk e]; cbn [app copyLoop]; try reflexivity;
    (destruct (len chunk =? 0); [reflexivity|];
     destruct (Write flate wr chunk) as [[wr1 out]|e1]; [|reflexivity];
     cbn; apply IH).
Qed.

End EdgeCases.

(** X8: a file that fails in the middle of being read is not estimated: the
    estimator returns the read error (the bytes read so far are dropped),
    and [processFile] reports it, leaves the counters as they were and
    issues no control call. *)
Theorem read_error_aborts_the_file
    (flate : Flate) (w : World) (p : path) (st : Stats)
    (reads : list ReadResult) (e : error) (wr : writer flate)
    (r : writer flate * list Byte.byte) :
  Open w p = Ok reads ->
  readError reads = Some e ->
  NewWriter flate = Ok wr ->
  writeAll flate wr (chunksRead reads) [] = Ok r ->
  compressFileInMemory flate w p = Err e
  /\ (estimated w p = true ->
      processFile flate w p st = (st, [PrintEstimateError p e])).
Proof.
  intros Hopen Herr Hnew Hwrite.
  assert (E : compressFileInMemory flate w p = Err e).
  { unfold compressFileInMemory. rewrite Hopen. cbn. rewrite Hnew. cbn.
    rewrite (copyLoop_readError flate reads e wr [] 0 Herr), Hwrite.
    destruct r. reflexivity. }
  split; [exact E|].
  unfold estimated, processFile. intros Hest.
  destruct (getFileSize w p) as [size|e0]; [|discriminate Hest].
  destruct (size >? _); [discriminate Hest|]. rewrite E. reflexivity.
Qed.

Lemma read_error_aborts_the_file_witness :
  let w := withOpen demoWorld
             [ReadNil (repeat Byte.x00 10); ReadFail [] (ErrOther 5)] in
  compressFileInMemory zeroSkipFlate w "zeros"%string = Err (ErrOther 5)
  /\ processFile zeroSkipFlate w "zeros"%string zeroStats
     = (zeroStats, [PrintEstimateError "zeros"%string (ErrOther 5)]).
Proof.
  cbv zeta.
  destruct (read_error_aborts_the_file zeroSkipFlate
              (withOpen demoWorld
                 [ReadNil (repeat Byte.x00 10); ReadFail [] (ErrOther 5)])
              "zeros"%string zeroStats
              [ReadNil (repeat Byte.x00 10); ReadFail [] (ErrOther 5)]
              (ErrOther 5) tt (tt, []))
    as [H1 H2]; try reflexivity.
  split; [exact H1|]. apply H2. reflexivity.
Defined.

(** X9: a read that returns zero bytes ends the estimate, even without an
    error: whatever the file would deliver afterwards is never read, and the
    result is that of the stream cut there. *)
Theorem zero_byte_read_ends_the_estimate
    (flate : Flate) (w : World) (p : path) (pre post : list ReadResult) :
  compressFileInMemory flate (withOpen w (pre ++ ReadNil [] :: post)) p
  = compressFileInMemory flate (withOpen w pre) p.
Proof.
  unfold compressFileInMemory. cbn.
  destruct (NewWriter flate) as [wr|e]; [|reflexivity]. cbn.
  rewrite copyLoop_zero_read. reflexivity.
Qed.

(** X10: an empty file is estimated as (0, length of the closed stream) and,
    the closed stream of a deflate writer not being empty, the decision is
    Disable: the disabling control call is issued and the file adds nothing
    to [totalFilesCompressed] or [totalSpaceSaved]. *)
Theorem empty_file_is_disabled
    (flate : Flate) (w : World) (p : path) (st : Stats)
    (reads : list ReadResult) (wr : writer flate) (out : list Byte.byte) :
  estimated w p = true ->
  Open w p = Ok reads ->
  chunksRead reads = [] -> readError reads = None ->
  NewWriter flate = Ok wr -> Close flate wr = Ok out ->
  0 < len out <= Go.int64_max ->
  compressFileInMemory flate w p = Ok (0, len out)
  /\ controlCalls (processFile flate w p st).2
     = [(p, COMPRESSION_FORMAT_NONE)]
  /\ totalFilesCompressed (processFile flate w p st).1
     = totalFilesCompressed st
  /\ totalSpaceSaved (processFile flate w p st).1 = totalSpaceSaved st.
Proof.
  intros Hest Hopen Hchunks Herr Hnew Hclose Hout.
  assert (E : compressFileInMemory flate w p = Ok (0, len out)).
  { rewrite (compressFileInMemory_sizes flate w p reads Hopen Herr).
    unfold sinkAfterClose, bytesRead. rewrite Hchunks, Hnew. cbn.
    rewrite Hclose. reflexivity. }
  split; [exact E|].
  unfold estimated in Hest. unfold processFile.
  destruct (getFileSize w p) as [size|e0]; [|discriminate Hest].
  destruct (size >? _); [discriminate Hest|]. rewrite E.
  unfold decisionStep. rewrite (notWorthIt_zero_original (len out) Hout).
  destruct (disableCompression w p); cbn; auto.
Qed.

Lemma empty_file_is_disabled_witness :
  let w := withOpen demoWorld [ReadEOF []] in
  compressFileInMemory storedFlate w "zeros"%string = Ok (0, 5)
  /\ controlCalls (processFile storedFlate w "zeros"%string zeroStats).2
     = [("zeros"%string, COMPRESSION_FORMAT_NONE)].
Proof.
  cbv zeta.
  destruct (empty_file_is_disabled storedFlate
              (withOpen demoWorld [ReadEOF []]) "zeros"%string zeroStats
              [ReadEOF []] tt
              [Byte.x01; Byte.x00; Byte.x00; Byte.xff; Byte.xff])
    as (H1 & H2 & _); try reflexivity.
  - vm_compute. split; [reflexivity|discriminate].
  - split; [exact H1|exact H2].
Defined.

(** X11: the guard compares with [int64(memStat.Frees)]; a reading of 2^63
    or more converts to a negative number, and then every file is reported
    as too large and skipped. *)
Theorem frees_beyond_int64_skips_every_file
    (flate : Flate) (w : World) (p : path) (st : Stats) (size : Z) :
  getFileSize w p = Ok size -> 0 <= size ->
  2 ^ 63 <= Frees w p < 2 ^ 64 ->
  processFile flate w p st = (st, [PrintTooLarge p]).
Proof.
  intros Hsize Hnonneg Hfrees. unfold processFile. rewrite Hsize.
  assert (Hneg : Go.int64_of_uint64 (Frees w p) < 0).
  { unfold Go.int64_of_uint64, Go.to_int64.
    replace (Frees w p + 2 ^ 63)
      with ((Frees w p - 2 ^ 63) + 1 * 2 ^ 64) by lia.
    rewrite Z.mod_add by lia. rewrite Z.mod_small by lia. lia. }
  destruct (Z.gtb_spec size (Go.int64_of_uint64 (Frees w p))) as [_|Hle];
    [reflexivity|lia].
Qed.

Lemma frees_beyond_int64_skips_every_file_witness :
  processFile zeroSkipFlate (withFrees demoWorld (2 ^ 63)) "zeros"%string
    zeroStats
  = (zeroStats, [PrintTooLarge "zeros"%string]).
Proof.
  apply (frees_beyond_int64_skips_every_file zeroSkipFlate
           (withFrees demoWorld (2 ^ 63)) "zeros"%string zeroStats 100).
  - reflexivity.
  - lia.
  - cbn. lia.
Defined.

(** ** Bounds on the final counters *)

Section CounterBounds.

Variable flate : Flate.
Variable w : World.

Lemma sumOver_nonneg (f : path -> Z) (l : list path) :
  (forall p, In p l -> 0 <= f p) -> 0 <= sumOver f l.
Proof.
  induction l as [|p l IH]; intros H; cbn [sumOver]; [lia|].
  pose proof (H p (or_introl eq_refl)).
  assert (0 <= sumOver f l) by (apply IH; intros q Hq; apply H; right; exact Hq).
  lia.
Qed.

Lemma sample_sizes (p : path) (originalSize compressedSize : Z) :
  sample flate w p = Some (originalSize, compressedSize) ->
  Go.in_int64 originalSize /\ 0 <= compressedSize.
Proof.
  unfold sample. destruct (estimated w p); [|discriminate].
  unfold compressFileInMemory.
  destruct (Open w p) as [reads|e]; [|discriminate]. cbn.
  destruct (NewWriter flate) as [wr|e]; [|discriminate]. cbn.
  destruct (copyLoop flate reads wr [] 0) as [[[wr' sink] osz]|e] eqn:Hloop;
    [|discriminate]. cbn.
  destruct (Close flate wr') as [out|e]; [|discriminate]. cbn.
  intros E. injection E as <- <-. split; [|apply len_nonneg].
  clear -Hloop.
  assert (G : forall reads wr sink osz wr' sink' osz',
             Go.in_int64 osz ->
             copyLoop flate reads wr sink osz = Ok (wr', sink', osz') ->
             Go.in_int64 osz').
  { clear. induction reads as [|r reads IH]; intros wr sink osz wr' sink' osz'
      Hin H.
    - cbn in H. injection H as <- <- <-. exact Hin.
    - destruct r as [chunk|chunk|chunk e]; cbn [copyLoop] in H;
        try discriminate;
        (destruct (len chunk =? 0);
         [injection H as <- <- <-; exact Hin|];
         destruct (Write flate wr chunk) as [[wr1 out]|e1];
         [|discriminate];
         cbn in H; apply (IH _ _ _ _ _ _ (to_int64_range _) H)). }
  apply (G reads wr [] 0 wr' sink osz); [|exact Hloop].
  unfold Go.in_int64, Go.int64_min, Go.int64_max. lia.
Qed.

(** What a file adds to [totalSpaceSaved] is not negative, as soon as its
    sizes are those of a real file. *)
Lemma bytesSaved_nonneg (p : path) :
  (forall originalSize compressedSize,
     sample flate w p = Some (originalSize, compressedSize) ->
     0 <= originalSize /\ compressedSize <= Go.int64_max) ->
  0 <= bytesSaved (outcome flate w p).
Proof.
  intros Hreal. unfold outcome.
  destruct (sample flate w p) as [[o c]|] eqn:Hs; [|cbn; lia].
  destruct (Hreal o c eq_refl) as [Ho Hc].
  destruct (sample_sizes p o c Hs) as [Hin Hc0].
  cbv zeta. destruct (apply w p (decide o c)); [cbn; lia|].
  destruct (decide o c) eqn:Hd; [|cbn; lia].
  cbn [bytesSaved].
  assert (Hsaved : spaceSaved o c = o - c).
  { unfold spaceSaved, Go.sub64. apply to_int64_id.
    unfold Go.in_int64, Go.int64_min, Go.int64_max in *. lia. }
  destruct (Z.eq_dec o 0) as [->|Hne].
  - destruct (Z.eq_dec c 0) as [->|Hc1]; [rewrite Hsaved; lia|].
    unfold decide in Hd.
    rewrite notWorthIt_zero_original in Hd by lia. discriminate Hd.
  - destruct (Z_lt_le_dec 0 (spaceSaved o c)) as [?|Hle]; [lia|].
    unfold decide in Hd.
    rewrite notWorthIt_without_saving in Hd;
      [discriminate Hd| |exact Hle].
    unfold Go.in_int64, Go.int64_max in *. lia.
Qed.

End CounterBounds.

(** X12: with fewer than 2^63 files, the final counters are bounded by the
    number of files handed to the pool: none is negative and
    [totalFilesCompressed + totalFilesDecompressed <= totalFilesProcessed
     <= number of files]. *)
Theorem counters_bounded_by_files
    (flate : Flate) (w : World) (n : nat) (sched : list nat) (l : list path) :
  (0 < n)%nat -> Z.of_nat (length l) < 2 ^ 63 ->
  let st := stats (runPool flate w n sched l zeroStats) in
  0 <= totalFilesCompressed st
  /\ 0 <= totalFilesDecompressed st
  /\ totalFilesCompressed st + totalFilesDecompressed st
     <= totalFilesProcessed st
  /\ totalFilesProcessed st <= Z.of_nat (length l).
Proof.
  intros Hn Hlen st. unfold st.
  rewrite (runPool_stats flate w n sched l zeroStats Hn wfStats_zero).
  destruct (tally_exact flate w l Hlen) as (-> & -> & ->).
  rewrite sumOver_counted_split.
  pose proof (sumOver_bounds (fun p => counted (outcome flate w p)) l
                (fun p => counted_bounds _)) as B1.
  rewrite sumOver_counted_split in B1.
  pose proof (sumOver_bounds (fun p => compressed (outcome flate w p)) l
                (fun p => compressed_bounds _)).
  pose proof (sumOver_bounds (fun p => decompressed (outcome flate w p)) l
                (fun p => decompressed_bounds _)).
  pose proof (sumOver_bounds (fun p => applyFailed (outcome flate w p)) l
                (fun p => applyFailed_bounds _)).
  unfold filesApplyFailed in *. lia.
Qed.

Lemma counters_bounded_by_files_witness :
  let st := stats (runPool zeroSkipFlate demoWorld 2 [1; 1; 0]%nat demoPaths
                     zeroStats) in
  0 <= totalFilesCompressed st
  /\ 0 <= totalFilesDecompressed st
  /\ totalFilesCompressed st + totalFilesDecompressed st
     <= totalFilesProcessed st
  /\ totalFilesProcessed st <= 5.
Proof.
  apply (counters_bounded_by_files zeroSkipFlate demoWorld 2 [1; 1; 0]%nat
           demoPaths).
  - lia.
  - vm_compute. reflexivity.
Defined.

(** X13: the reported [totalSpaceSaved] is never negative, when the sizes
    of every file are those of a real file (a non-negative [originalSize]
    and a sink shorter than 2^63 bytes) and the total fits in an [int64]. *)
Theorem totalSpaceSaved_not_negative
    (flate : Flate) (w : World) (n : nat) (sched : list nat) (l : list path) :
  (0 < n)%nat ->
  (forall p originalSize compressedSize,
     In p l -> sample flate w p = Some (originalSize, compressedSize) ->
     0 <= originalSize /\ compressedSize <= Go.int64_max) ->
  sumOver (fun p => bytesSaved (outcome flate w p)) l <= Go.int64_max ->
  0 <= totalSpaceSaved (stats (runPool flate w n sched l zeroStats)).
Proof.
  intros Hn Hreal Hfit.
  rewrite (runPool_stats flate w n sched l zeroStats Hn wfStats_zero). cbn.
  assert (Hsum : 0 <= sumOver (fun p => bytesSaved (outcome flate w p)) l).
  { apply sumOver_nonneg. intros p Hp. apply bytesSaved_nonneg.
    intros o c Hs. apply (Hreal p o c Hp Hs). }
  rewrite to_int64_id; [exact Hsum|].
  unfold Go.in_int64, Go.int64_min, Go.int64_max in *. lia.
Qed.

Lemma totalSpaceSaved_not_negative_witness :
  0 <= totalSpaceSaved
         (stats (runPool zeroSkipFlate demoWorld 2 [0; 1]%nat demoPaths
                   zeroStats)).
Proof.
  apply (totalSpaceSaved_not_negative zeroSkipFlate demoWorld 2 [0; 1]%nat
           demoPaths).
  - lia.
  - intros p o c Hp Hs. cbn in Hp.
    destruct Hp as [<-|[<-|[<-|[<-|[<-|[]]]]]]; vm_compute in Hs;
      try discriminate Hs; injection Hs as <- <-; vm_compute;
      split; discriminate.
  - vm_compute. discriminate.
Defined.

(** ** The checksum string of [checksum.ps1] *)

Lemma string_app_nil_r (a : string) : (a ++ "" = a)%string.
Proof. induction a as [|x a IH]; cbn; [|rewrite IH]; reflexivity. Qed.

Lemma removeHyphens_byteToHex (b : Byte.byte) (s : string) :
  removeHyphens (byteToHex b ++ s) = (byteToHex b ++ removeHyphens s)%string.
Proof. destruct b; reflexivity. Qed.

Lemma removeHyphens_ToString (bs : list Byte.byte) :
  removeHyphens (BitConverter_ToString bs) = hexOf bs.
Proof.
  induction bs as [|b bs IH]; [reflexivity|].
  destruct bs as [|b' bs].
  - cbn [BitConverter_ToString hexOf].
    rewrite <- (string_app_nil_r (byteToHex b)) at 1.
    rewrite removeHyphens_byteToHex. reflexivity.
  - change (BitConverter_ToString (b :: b' :: bs))
      with (byteToHex b ++ "-" ++ BitConverter_ToString (b' :: bs))%string.
    rewrite removeHyphens_byteToHex.
    change (removeHyphens ("-" ++ BitConverter_ToString (b' :: bs)))
      with (removeHyphens (BitConverter_ToString (b' :: bs))).
    rewrite IH. reflexivity.
Qed.

Lemma hexDecode_byteToHex (b : Byte.byte) (s : string) :
  hexDecode (byteToHex b ++ s)
  = match hexDecode s with
    | Some bs => Some (b :: bs)
    | None => None
    end.
Proof. destruct b; cbn; destruct (hexDecode s); reflexivity. Qed.

Lemma hexDecode_hexOf (bs : list Byte.byte) : hexDecode (hexOf bs) = Some bs.
Proof.
  induction bs as [|b bs IH]; [reflexivity|].
  cbn [hexOf]. rewrite hexDecode_byteToHex, IH. reflexivity.
Qed.

Lemma length_hexOf (bs : list Byte.byte) :
  String.length (hexOf bs) = (2 * length bs)%nat.
Proof.
  induction bs as [|b bs IH]; [reflexivity|].
  cbn [hexOf length].
  change (byteToHex b ++ hexOf bs)%string
    with (String (hexDigit (Byte.to_N b / 16)%N)
            (String (hexDigit (Byte.to_N b mod 16)%N) (hexOf bs))).
  cbn [String.length]. rewrite IH. lia.
Qed.

(** X15: the checksum string of [Get-FileChecksum] is the hash written as
    two upper-case hexadecimal digits per byte with nothing in between: it
    has twice as many characters as the hash has bytes, the hash can be read
    back from it, and two files get the same string exactly when they have
    the same hash. *)
Theorem checksum_string_is_plain_hex
    (SHA256 : list Byte.byte -> list Byte.byte) (content : list Byte.byte) :
  Get_FileChecksum SHA256 content = hexOf (SHA256 content)
  /\ String.length (Get_FileChecksum SHA256 content)
     = (2 * length (SHA256 content))%nat
  /\ hexDecode (Get_FileChecksum SHA256 content) = Some (SHA256 content)
  /\ (forall content',
        Get_FileChecksum SHA256 content = Get_FileChecksum SHA256 content'
        <-> SHA256 content = SHA256 content').
Proof.
  unfold Get_FileChecksum. rewrite removeHyphens_ToString.
  split; [reflexivity|]. split; [apply length_hexOf|].
  split; [apply hexDecode_hexOf|].
  intros content'. rewrite removeHyphens_ToString. split.
  - intros E. apply (f_equal hexDecode) in E.
    rewrite !hexDecode_hexOf in E. injection E as E. exact E.
  - intros ->. reflexivity.
Qed.

Lemma checksum_string_is_plain_hex_witness :
  Get_FileChecksum (fun c => c) [Byte.x7f; Byte.x2c; Byte.x4a] = "7F2C4A"%string.
Proof.
  destruct (checksum_string_is_plain_hex (fun c => c)
              [Byte.x7f; Byte.x2c; Byte.x4a]) as (H & _).
  rewrite H. reflexivity.
Defined.
